(** * Marketing attribution ETL: batching, submission, reconciliation, rollup

    A shallow embedding of the attribution pipeline of the repository:
    - [Batcher]   : [IHCApiClient.group_by_conversion_id] and
                    [IHCApiClient.create_chunks] (src/api/ihc_api.py);
    - [Client]    : [IHCApiClient.send_transformed_data] (src/api/ihc_api.py);
    - [Loader]    : [DataLoader.load_attribution_results] (src/etl/load.py);
    - [Verification] : [DataLoader.verify_attribution_data]
                    (src/etl/load.py);
    - [Reporting] : [ChannelReporting.aggregate_channel_metrics]
                    (src/etl/reporting.py);
    - [Report]    : [ChannelReporting.export_channel_report]
                    (src/etl/reporting.py);
    - [Transform] : [DataTransformer.transform_data]
                    (src/etl/transform.py).

    Python lists are lists, insertion-ordered dicts are association lists,
    the [seen] set is a [gset], and SQL tables are lists of rows with
    nullable columns as [option].  A Python float is a finite value, an
    infinity or NaN; the values that [float] and [sum] round to are left to
    the builtins.  A REAL column holds rationals, added as such by the
    rollup; the quotients of the report are left to the database.
    Logging, sleeping, the store and exceptions are threaded through a
    small state-and-exception monad ([Run]); the HTTP service is a
    function from the request made to the reply received.  Files are
    taken as already opened and parsed: the functions start from the list
    the file holds.

    The definitions come first; the properties proved of them follow, by
    component. *)

From Stdlib Require Import QArith.
From stdpp Require Import base tactics option list sorting gmap strings.

Local Open Scope string_scope.
Local Open Scope list_scope.
Local Open Scope nat_scope.

(** ** Python values and control *)

#[local] Set Warnings "-register-all".

(** What [json.load] returns: [None], [bool], numbers, [str], [list] and
    insertion-ordered [dict].  A number is an [int] or a finite [float],
    held by its value. *)
Inductive json :=
| JNull
| JBool (b : bool)
| JNum (q : Q)
| JStr (s : string)
| JArr (items : list json)
| JObj (fields : list (string * json)).

(** [d.get(key)] on a dict ([None] when the key is absent). *)
Fixpoint dict_get (key : string) (fields : list (string * json))
    : option json :=
  match fields with
  | [] => None
  | (k, v) :: rest => if String.eqb k key then Some v else dict_get key rest
  end.

(** [key in d] *)
Definition dict_has (key : string) (fields : list (string * json)) : bool :=
  match dict_get key fields with Some _ => true | None => false end.

(** Truth value of an object, as tested by [if x:] and [and]. *)
Definition truthy (x : json) : bool :=
  match x with
  | JNull => false
  | JBool b => b
  | JNum q => negb (Qeq_bool q 0)
  | JStr s => negb (String.eqb s "")
  | JArr items => match items with [] => false | _ => true end
  | JObj fields => match fields with [] => false | _ => true end
  end.

(** [x == n] for a number literal [n]; [True == 1] and [False == 0]. *)
Definition eq_number (x : json) (n : Q) : bool :=
  match x with
  | JNum q => Qeq_bool q n
  | JBool b => Qeq_bool (if b then 1 else 0) n
  | _ => false
  end.

(** The characters of a string, each as a one-character string. *)
Fixpoint chars (s : string) : list json :=
  match s with
  | EmptyString => []
  | String a rest => JStr (String a EmptyString) :: chars rest
  end.

(** The items produced by iterating over [x] ([for e in x],
    [list.extend(x)]); [None] when [x] is not iterable and Python raises
    [TypeError].  A dict iterates over its keys. *)
Definition py_iter (x : json) : option (list json) :=
  match x with
  | JArr items => Some items
  | JStr s => Some (chars s)
  | JObj fields => Some (JStr <$> fields.*1)
  | JNull | JBool _ | JNum _ => None
  end.

(** [s1 in s2] on strings. *)
Definition is_substring (s1 s2 : string) : bool :=
  match String.index 0 s1 s2 with Some _ => true | None => false end.

Inductive exn :=
| ValueError (msg : string)
| TypeError (msg : string)
| ConnectionError
| HTTPError (status : Z)
| JSONDecodeError
| KeyError (key : string)
| AttributeError (msg : string)
| OverflowError (msg : string).

Inductive outcome (A : Type) :=
| Return (a : A)
| Raise (e : exn).
Arguments Return {A} a.
Arguments Raise {A} e.

(** Sequencing of steps that may raise. *)
Definition and_then {A B} (o : outcome A) (k : A → outcome B) : outcome B :=
  match o with
  | Return a => k a
  | Raise e => Raise e
  end.

(** A Python [float]: a finite value, an infinity or NaN. *)
Inductive float :=
| Finite (q : Q)
| Infinity (negative : bool)
| NaN.

(** [x <= 0] on a float: false on NaN. *)
Definition le_zero (x : float) : bool :=
  match x with
  | Finite q => Qle_bool q 0
  | Infinity negative => negative
  | NaN => false
  end.

(** The builtins whose result on arbitrary input is not spelled out here:
    the text of [str(x)] for numbers, lists and dicts; [float(x)] of a
    number of value [q], rounded when [q] is an integer that no float
    holds ([None] when it raises [OverflowError]); the parse made by
    [float(s)] of a string ([None] when it raises [ValueError]); and the
    float that [sum] makes of a non-empty sequence of floats. *)
Class Builtins := {
  repr : json → string;
  float_of_number : Q → option float;
  float_of_str : string → option float;
  float_sum : list float → float
}.

(** [str(x)] *)
Definition py_str `{Builtins} (x : json) : string :=
  match x with
  | JStr s => s
  | JNull => "None"
  | JBool true => "True"
  | JBool false => "False"
  | JNum _ | JArr _ | JObj _ => repr x
  end.

(** [float(x)] *)
Definition py_float `{Builtins} (x : json) : outcome float :=
  match x with
  | JNum q =>
      match float_of_number q with
      | Some f => Return f
      | None => Raise (OverflowError "int too large to convert to float")
      end
  | JBool b => Return (Finite (if b then 1 else 0))
  | JStr s =>
      match float_of_str s with
      | Some f => Return f
      | None => Raise (ValueError "could not convert string to float")
      end
  | JNull | JArr _ | JObj _ =>
      Raise (TypeError "float() argument must be a string or a real number")
  end.

(** *** Computations that log, mutate a store and may raise

    A computation takes the state of the world, and gives back an outcome
    and the state it leaves behind; what was written before an exception is
    raised stays written. *)
Module Run.
Section Run.
Context {S : Type}.

Definition M (A : Type) : Type := S → outcome A * S.

Definition ret {A} (a : A) : M A := fun s => (Return a, s).

Definition raise {A} (e : exn) : M A := fun s => (Raise e, s).

Definition bind {A B} (m : M A) (k : A → M B) : M B :=
  fun s =>
    match m s with
    | (Return a, s') => k a s'
    | (Raise e, s') => (Raise e, s')
    end.

Definition gets {A} (f : S → A) : M A := fun s => (Return (f s), s).

Definition modify (f : S → S) : M unit := fun s => (Return tt, f s).

(** A pure step that may raise. *)
Definition lift {A} (o : outcome A) : M A := fun s => (o, s).

(** [try: m  except Exception as e: handler e] *)
Definition try_except {A} (m : M A) (handler : exn → M A) : M A :=
  fun s =>
    match m s with
    | (Return a, s') => (Return a, s')
    | (Raise e, s') => handler e s'
    end.

(** A [for] loop that updates its local variables [b]. *)
Fixpoint foldM {A B} (body : B → A → M B) (b : B) (l : list A) : M B :=
  match l with
  | [] => ret b
  | x :: rest => bind (body b x) (fun b' => foldM body b' rest)
  end.

End Run.
Arguments M : clear implicits.
End Run.

Declare Scope run_scope.
Delimit Scope run_scope with run.
Notation "'let*' x := c 'in' k" := (Run.bind c (fun x => k))
  (at level 10, x pattern, c at level 100, k at level 200) : run_scope.
Notation "c ;; k" := (Run.bind c (fun _ => k))
  (at level 100, k at level 200, right associativity) : run_scope.

(** [enumerate(l, start)] *)
Fixpoint enumerate {A} (start : nat) (l : list A) : list (nat * A) :=
  match l with
  | [] => []
  | x :: rest => (start, x) :: enumerate (S start) rest
  end.

(** ** Journey entries (the wire unit written by the transformer) *)

Record JourneyEntry := {
  conversion_id : string;
  session_id : string;
  timestamp : string;
  channel_label : string;
  holder_engagement : Z;
  closer_engagement : Z;
  conversion : Z;
  impression_interaction : Z
}.

(** ** The relational store

    Tables are lists of rows in insertion order; a nullable column is an
    [option].  Only the columns read or written by the loader and by the
    rollup are kept. *)

Record session_source := {
  ss_session_id : option string;
  ss_channel_name : option string;
  ss_event_date : option string
}.

Record conversion_row := {
  c_conv_id : option string;
  c_conv_date : option string;
  c_revenue : option Q
}.

Record session_cost := {
  sc_session_id : option string;
  sc_cost : option Q
}.

(** [attribution_customer_journey(conv_id TEXT, session_id TEXT, ihc REAL,
    UNIQUE(conv_id, session_id) ON CONFLICT REPLACE)] *)
Record attribution := {
  acj_conv_id : option string;
  acj_session_id : option string;
  acj_ihc : option Q
}.

(** [channel_reporting(channel_name, date, cost, ihc, ihc_revenue)] *)
Record channel_metric := {
  channel_name : string;
  date : string;
  cost : Q;
  ihc : Q;
  ihc_revenue : Q
}.

Record Database := {
  session_sources : list session_source;
  conversions : list conversion_row;
  session_costs : list session_cost;
  attribution_customer_journey : list attribution;
  channel_reporting : list channel_metric
}.

(** [a = b] in SQL: true only when both sides are non-NULL and equal. *)
Definition sql_eq (a b : option string) : bool :=
  match a, b with
  | Some x, Some y => String.eqb x y
  | _, _ => false
  end.

(** [x / y] on two [REAL] values, [y] not being zero: the quotient as the
    database rounds it, which is not spelled out here. *)
Class Sqlite := {
  real_div : Q → Q → Q
}.
(** ** JourneyBatcher *)

Module Batcher.

(** API limits set in [IHCApiClient.__init__]. *)
Definition MAX_JOURNEYS_PER_REQUEST : nat := 85.
Definition MAX_SESSIONS_PER_REQUEST : nat := 2750.

(** [journeys.setdefault(conv_id, []).append(session)] on an
    insertion-ordered dict. *)
Fixpoint setdefault_append (journeys : list (string * list JourneyEntry))
    (conv_id : string) (session : JourneyEntry)
    : list (string * list JourneyEntry) :=
  match journeys with
  | [] => [(conv_id, [session])]
  | (k, v) :: rest =>
      if decide (k = conv_id) then (k, v ++ [session]) :: rest
      else (k, v) :: setdefault_append rest conv_id session
  end.

Definition group_by_conversion_id (data : list JourneyEntry)
    : list (string * list JourneyEntry) :=
  foldl (fun journeys session =>
           setdefault_append journeys (conversion_id session) session)
        [] data.

(** The loop variables of [create_chunks]. *)
Record chunker := {
  chunks : list (list JourneyEntry);
  current_chunk : list JourneyEntry;
  current_sessions : nat;
  current_journeys : nat
}.

Definition chunker_init : chunker :=
  {| chunks := []; current_chunk := [];
     current_sessions := 0; current_journeys := 0 |}.

(** [if current_chunk: chunks.append(current_chunk)] *)
Definition append_if_nonempty (cs : list (list JourneyEntry))
    (c : list JourneyEntry) : list (list JourneyEntry) :=
  match c with
  | [] => cs
  | _ :: _ => cs ++ [c]
  end.

(** The capacity test made before a journey is added. *)
Definition exceeds (st : chunker) (sessions : list JourneyEntry) : bool :=
  (MAX_JOURNEYS_PER_REQUEST <? current_journeys st + 1)
  || (MAX_SESSIONS_PER_REQUEST <? current_sessions st + length sessions).

Definition close_chunk (st : chunker) : chunker :=
  {| chunks := append_if_nonempty (chunks st) (current_chunk st);
     current_chunk := [];
     current_sessions := 0;
     current_journeys := 0 |}.

Definition add_journey (st : chunker) (sessions : list JourneyEntry)
    : chunker :=
  {| chunks := chunks st;
     current_chunk := current_chunk st ++ sessions;
     current_sessions := current_sessions st + length sessions;
     current_journeys := current_journeys st + 1 |}.

(** One iteration of [for conv_id, sessions in journeys.items()]. *)
Definition chunk_step (st : chunker) (journey : string * list JourneyEntry)
    : chunker :=
  let sessions := journey.2 in
  add_journey (if exceeds st sessions then close_chunk st else st) sessions.

Definition create_chunks (data : list JourneyEntry)
    : list (list JourneyEntry) :=
  let st := foldl chunk_step chunker_init (group_by_conversion_id data) in
  append_if_nonempty (chunks st) (current_chunk st).

(** Number of distinct conversion ids carried by a chunk. *)
Definition distinct_conversions (chunk : list JourneyEntry) : nat :=
  size (list_to_set (C := gset string) (conversion_id <$> chunk)).

(** The entries of [data] that belong to conversion [c], in input order. *)
Definition entries_of (c : string) (data : list JourneyEntry)
    : list JourneyEntry :=
  filter (fun e => conversion_id e = c) data.

(** The entries carried by a run of journeys, in order. *)
Definition flat (journeys : list (string * list JourneyEntry))
    : list JourneyEntry :=
  mjoin journeys.*2.

(** What the loop guarantees of every run of journeys it puts in one chunk:
    at most 85 journeys, and either at most 2750 entries or a single
    journey (the one that was added right after a reset). *)
Definition block_ok (b : list (string * list JourneyEntry)) : Prop :=
  length b ≤ MAX_JOURNEYS_PER_REQUEST
  ∧ (length (flat b) ≤ MAX_SESSIONS_PER_REQUEST ∨ length b ≤ 1).

(** Loop invariant of [create_chunks] after the journeys [done] have been
    consumed. *)
Definition chunker_inv (done : list (string * list JourneyEntry))
    (st : chunker) : Prop :=
  ∃ blocks cur,
    done = mjoin blocks ++ cur
    ∧ chunks st = flat <$> blocks
    ∧ current_chunk st = flat cur
    ∧ current_sessions st = length (flat cur)
    ∧ current_journeys st = length cur
    ∧ Forall block_ok blocks
    ∧ block_ok cur.

End Batcher.

(** ** AttributionClient ([IHCApiClient.send_transformed_data]) *)

Module Client.
Import Run.
Local Open Scope run_scope.

Inductive level := INFO | WARNING | ERROR.

(** The log lines of [send_transformed_data] and [save_response]. *)
Inductive message :=
| Split_data_into_chunks (total_chunks : nat)
| Skipping_invalid_chunk (i total_chunks : nat)
| Chunk_succeeded (i total_chunks : nat)
| Chunk_attempt_failed (i total_chunks attempt : nat) (e : exn)
    (wait_time : nat)
| Chunk_failed_after_attempts (i total_chunks max_attempts : nat)
| Completed_sending_data (successful_chunks total_chunks : nat)
| Saving_API_responses
| API_responses_saved
| Fatal_error_in_send_transformed_data (e : exn).

(** What the process leaves behind: its log, the seconds it slept, in
    order, and the content of [api_response.json] once written. *)
Record World := {
  log : list (level * message);
  slept : list nat;
  api_response_json : option (list json)
}.

Definition logger (lvl : level) (msg : message) : M World unit :=
  modify (fun w => {| log := log w ++ [(lvl, msg)]; slept := slept w;
                      api_response_json := api_response_json w |}).

(** [time.sleep(seconds)] *)
Definition sleep (seconds : nat) : M World unit :=
  modify (fun w => {| log := log w; slept := slept w ++ [seconds];
                      api_response_json := api_response_json w |}).

(** [save_response]: the directory can be made and the file written. *)
Definition save_response (responses : list json) : M World unit :=
  logger INFO Saving_API_responses ;;
  modify (fun w => {| log := log w; slept := slept w;
                      api_response_json := Some responses |}) ;;
  logger INFO API_responses_saved.

(** What one [requests.post] brings back: no response at all (the call
    raises), or a response with its status code and, when the body parses,
    the value of [response.json()]. *)
Inductive reply :=
| Unreachable
| Response (status_code : Z) (body : option json).

Definition max_attempts : nat := 3.
Definition backoff_base : nat := 2.

(** The local variables of the loop over the chunks. *)
Record sending := {
  responses : list json;
  successful_chunks : nat
}.

Section Network.

(** The service: the reply to the request made for chunk number [i] after
    [attempt] failed attempts. *)
Variable post : nat → nat → list JourneyEntry → reply.

Variable conv_type_id : string.

(** The body of the inner [try]: the parsed body of an accepted response,
    or the exception that sends control to the [except] clause. *)
Definition request (i attempt : nat) (chunk : list JourneyEntry)
    : outcome json :=
  if String.eqb conv_type_id "" then
    Raise (ValueError "conv_type_id cannot be empty")
  else
    match post i attempt chunk with
    | Unreachable => Raise ConnectionError
    | Response status_code body =>
        if ((400 <=? status_code) && (status_code <? 600))%Z then
          Raise (HTTPError status_code)
        else
          match body with
          | None => Raise JSONDecodeError
          | Some response_data =>
              if ((status_code =? 200) || (status_code =? 206))%Z then
                Return response_data
              else Raise (HTTPError status_code)
          end
    end.

(** [while attempt < max_attempts and not success], with
    [budget = max_attempts - attempt] attempts left. *)
Fixpoint retry (budget attempt i total_chunks : nat)
    (chunk : list JourneyEntry) (acc : sending) : M World sending :=
  match budget with
  | 0 => ret acc
  | S budget' =>
      match request i attempt chunk with
      | Return response_data =>
          logger INFO (Chunk_succeeded i total_chunks) ;;
          (if i <? total_chunks then sleep 1 else ret tt) ;;
          ret {| responses := responses acc ++ [response_data];
                 successful_chunks := successful_chunks acc + 1 |}
      | Raise e =>
          let attempt := attempt + 1 in
          let wait_time := backoff_base ^ attempt in
          logger WARNING
            (Chunk_attempt_failed i total_chunks attempt e wait_time) ;;
          sleep wait_time ;;
          (if max_attempts <=? attempt then
             logger ERROR
               (Chunk_failed_after_attempts i total_chunks max_attempts)
           else ret tt) ;;
          retry budget' attempt i total_chunks chunk acc
      end
  end.

(** The body of [for i, chunk in enumerate(chunks, 1)]. *)
Definition send_chunk (total_chunks : nat) (acc : sending)
    (item : nat * list JourneyEntry) : M World sending :=
  let '(i, chunk) := item in
  match chunk with
  | [] => logger ERROR (Skipping_invalid_chunk i total_chunks) ;; ret acc
  | _ :: _ => retry max_attempts 0 i total_chunks chunk acc
  end.

Definition no_valid_responses : exn :=
  ValueError "No valid API responses received".

Definition empty_or_invalid : exn :=
  ValueError "Transformed data is empty or invalid format".

(** The body of the outer [try], on a file that holds the list [data]. *)
Definition send_body (data : list JourneyEntry) : M World (list json) :=
  match data with
  | [] => raise empty_or_invalid
  | _ :: _ =>
      let chunks := Batcher.create_chunks data in
      let total_chunks := length chunks in
      logger INFO (Split_data_into_chunks total_chunks) ;;
      let* acc := foldM (send_chunk total_chunks)
                    {| responses := []; successful_chunks := 0 |}
                    (enumerate 1 chunks) in
      logger INFO
        (Completed_sending_data (successful_chunks acc) total_chunks) ;;
      match responses acc with
      | [] => raise no_valid_responses
      | _ :: _ =>
          save_response (responses acc) ;;
          ret (responses acc)
      end
  end.

Definition send_transformed_data (data : list JourneyEntry)
    : M World (list json) :=
  try_except (send_body data)
    (fun e => logger ERROR (Fatal_error_in_send_transformed_data e) ;;
              raise e).

(** *** Notions used to state what the client does *)

(** The numbered chunks submitted for [data]. *)
Definition batches (data : list JourneyEntry)
    : list (nat * list JourneyEntry) :=
  enumerate 1 (Batcher.create_chunks data).

(** The batch obtains an accepted response at one of its three attempts. *)
Definition succeeds (batch : nat * list JourneyEntry) : Prop :=
  ∃ attempt response_data,
    attempt < max_attempts
    ∧ request batch.1 attempt batch.2 = Return response_data.

(** Every attempt of the batch's budget fails. *)
Definition exhausted (batch : nat * list JourneyEntry) : Prop :=
  ∀ attempt, attempt < max_attempts →
    ∃ e, request batch.1 attempt batch.2 = Raise e.

(** The body of the first accepted response of the batch within
    [budget] attempts counted from [attempt]. *)
Definition first_accepted (budget attempt : nat)
    (batch : nat * list JourneyEntry) : option json :=
  head (omap (fun a => match request batch.1 a batch.2 with
                       | Return response_data => Some response_data
                       | Raise _ => None
                       end) (seq attempt budget)).

(** The responses of the batches that succeed, in batch order. *)
Definition collected (data : list JourneyEntry) : list json :=
  omap (first_accepted max_attempts 0) (batches data).

End Network.

End Client.

(** The seconds slept by a batch that fails at each of [budget] attempts,
    the first of which follows [attempt] failed ones. *)
Fixpoint backoff_total (budget attempt : nat) : nat :=
  match budget with
  | 0 => 0
  | S budget' =>
      Client.backoff_base ^ (attempt + 1) + backoff_total budget' (attempt + 1)
  end.

(** ** ResponseReconciler and AttributionStore
       ([DataLoader.load_attribution_results]) *)

Module Loader.
Import Run.
Local Open Scope run_scope.

Inductive level := INFO | WARNING | ERROR.

(** Keys of the [error_counts] dict: the hashable values a response can
    carry under ['error_code'].  [True] and [1] are the same key. *)
Inductive dict_key :=
| KNone
| KNum (q : Q)
| KStr (s : string).

Definition dict_key_eqb (a b : dict_key) : bool :=
  match a, b with
  | KNone, KNone => true
  | KNum p, KNum q => Qeq_bool p q
  | KStr s, KStr t => String.eqb s t
  | _, _ => false
  end.

Definition hash_key (x : json) : outcome dict_key :=
  match x with
  | JNull => Return KNone
  | JBool b => Return (KNum (if b then 1 else 0)%Q)
  | JNum q => Return (KNum q)
  | JStr s => Return (KStr s)
  | JArr _ | JObj _ => Raise (TypeError "unhashable type")
  end.

(** The log lines of [load_attribution_results], by the text of their
    format string, with the values formatted into them. *)
Inductive message :=
| Loaded_API_responses (elements : nat)
| Partial_failure_in_response (idx : nat) (err : json)
| Response_has_status_200_but_no_value_list (idx : nat)
| API_error_in_response (idx : nat) (error : json)
| API_response_contained_errors (total : nat)
| Code_occurrences (code : dict_key) (count : nat)
| Invalid_structure_examples (samples : list json)
| Skipping_incomplete_entry
| Skipping_entry_with_empty_conversion_or_session_ID
| Duplicate_entry_detected (conv_id session_id : string)
| No_valid_attribution_data_to_load
| Invalid_total_IHC_value (total_ihc : float)
| Error_loading_attribution_results (e : exn).

Record World := {
  db : Database;
  log : list (level * message)
}.

Definition logger (lvl : level) (msg : message) : M World unit :=
  modify (fun w => {| db := db w; log := log w ++ [(lvl, msg)] |}).

(** *** Flattening the responses *)

(** The local variables of the first loop. *)
Record flattening := {
  valid_responses : list json;
  error_counts : list (dict_key * nat);
  structure_samples : list json
}.

(** [error_counts[key] += 1] on a [defaultdict(int)]. *)
Fixpoint increment (key : dict_key) (counts : list (dict_key * nat))
    : list (dict_key * nat) :=
  match counts with
  | [] => [(key, 1)]
  | (k, n) :: rest =>
      if dict_key_eqb k key then (k, S n) :: rest
      else (k, n) :: increment key rest
  end.

Definition count (key : dict_key) (acc : flattening) : flattening :=
  {| valid_responses := valid_responses acc;
     error_counts := increment key (error_counts acc);
     structure_samples := structure_samples acc |}.

(** [valid_responses.extend(items)] *)
Definition extend (items : list json) (acc : flattening) : flattening :=
  {| valid_responses := valid_responses acc ++ items;
     error_counts := error_counts acc;
     structure_samples := structure_samples acc |}.

(** [if len(structure_samples) < 3: structure_samples.append(response)] *)
Definition sample (response : json) (acc : flattening) : flattening :=
  {| valid_responses := valid_responses acc;
     error_counts := error_counts acc;
     structure_samples :=
       if length (structure_samples acc) <? 3
       then structure_samples acc ++ [response]
       else structure_samples acc |}.

(** The branch of the [if]/[elif] chain a response takes, with the parts of
    the response that the branch reads. *)
Inductive shape :=
| SuccessEnvelope (value : list json) (partialFailureErrors : option json)
| MissingValue
| LegacyData (data : json)
| LegacyResults (results : json)
| ErrorObject (error_code : json) (error : json)
| InvalidStructure
| FlatList (items : list json)
| InvalidType.

Definition status_is_200 (fields : list (string * json)) : bool :=
  match dict_get "statusCode" fields with
  | Some code => eq_number code 200
  | None => false
  end.

Definition classify (response : json) : shape :=
  match response with
  | JObj fields =>
      if status_is_200 fields then
        match dict_get "value" fields with
        | Some (JArr value) =>
            SuccessEnvelope value (dict_get "partialFailureErrors" fields)
        | _ => MissingValue
        end
      else match dict_get "data" fields with
      | Some data => LegacyData data
      | None =>
      match dict_get "results" fields with
      | Some results => LegacyResults results
      | None =>
      match dict_get "error" fields with
      | Some error =>
          ErrorObject
            (default (JStr "unknown_error") (dict_get "error_code" fields))
            error
      | None => InvalidStructure
      end end end
  | JArr items => FlatList items
  | JNull | JBool _ | JNum _ | JStr _ => InvalidType
  end.

(** [valid_responses.extend(x)] for an [x] taken from the response. *)
Definition extend_with (x : json) (acc : flattening) : M World flattening :=
  match py_iter x with
  | Some items => ret (extend items acc)
  | None => raise (TypeError "object is not iterable")
  end.

(** The body of [for idx, response in enumerate(api_responses)]. *)
Definition process_response (acc : flattening) (item : nat * json)
    : M World flattening :=
  let '(idx, response) := item in
  match classify response with
  | SuccessEnvelope value partial =>
      let acc := extend value acc in
      match partial with
      | Some errs =>
          if truthy errs then
            match py_iter errs with
            | Some items =>
                foldM (fun acc err =>
                         logger WARNING (Partial_failure_in_response idx err) ;;
                         ret (count (KStr "partial_failure") acc))
                      acc items
            | None => raise (TypeError "object is not iterable")
            end
          else ret acc
      | None => ret acc
      end
  | MissingValue =>
      logger WARNING (Response_has_status_200_but_no_value_list idx) ;;
      ret (sample response (count (KStr "missing_value") acc))
  | LegacyData data => extend_with data acc
  | LegacyResults results => extend_with results acc
  | ErrorObject error_code error =>
      let* key := lift (hash_key error_code) in
      logger ERROR (API_error_in_response idx error) ;;
      ret (count key acc)
  | InvalidStructure =>
      ret (sample response (count (KStr "invalid_structure") acc))
  | FlatList items => ret (extend items acc)
  | InvalidType =>
      ret (sample response (count (KStr "invalid_type") acc))
  end.

(** The "enhanced error reporting" block. *)
Definition report_errors (acc : flattening) : M World unit :=
  match error_counts acc with
  | [] => ret tt
  | _ :: _ =>
      logger WARNING
        (API_response_contained_errors (sum_list (error_counts acc).*2)) ;;
      foldM (fun _ kv => logger WARNING (Code_occurrences kv.1 kv.2))
            tt (error_counts acc) ;;
      match structure_samples acc with
      | [] => ret tt
      | _ :: _ =>
          logger WARNING (Invalid_structure_examples (structure_samples acc))
      end
  end.

Definition no_valid_attribution_data : exn :=
  ValueError "API response contained no valid attribution data. ".

(** Everything up to and including [if not valid_responses: raise]. *)
Definition flatten_responses (api_responses : list json)
    : M World (list json) :=
  let* acc := foldM process_response
                {| valid_responses := []; error_counts := [];
                   structure_samples := [] |}
                (enumerate 0 api_responses) in
  report_errors acc ;;
  match valid_responses acc with
  | [] => raise no_valid_attribution_data
  | _ :: _ => ret (valid_responses acc)
  end.

(** *** Validating, coercing and de-duplicating the candidates *)

(** [key in result] *)
Definition contains (key : string) (result : json) : outcome bool :=
  match result with
  | JObj fields => Return (dict_has key fields)
  | JArr items =>
      Return (existsb (fun x => match x with
                                | JStr s => String.eqb s key
                                | _ => false
                                end) items)
  | JStr s => Return (is_substring key s)
  | JNull | JBool _ | JNum _ =>
      Raise (TypeError "argument is not iterable")
  end.

(** [all(key in result for key in keys)], left to right, stopping at the
    first key that is absent. *)
Fixpoint all_in (keys : list string) (result : json) : outcome bool :=
  match keys with
  | [] => Return true
  | key :: rest =>
      and_then (contains key result)
               (fun present => if present then all_in rest result
                               else Return false)
  end.

(** [result[key]] *)
Definition getitem (key : string) (result : json) : outcome json :=
  match result with
  | JObj fields =>
      match dict_get key fields with
      | Some v => Return v
      | None => Raise (KeyError key)
      end
  | JArr _ => Raise (TypeError "list indices must be integers or slices")
  | JStr _ => Raise (TypeError "string indices must be integers")
  | JNull | JBool _ | JNum _ => Raise (TypeError "object is not subscriptable")
  end.

(** [result.get(key, default)] *)
Definition get_or (key : string) (dflt : json) (result : json)
    : outcome json :=
  match result with
  | JObj fields => Return (default dflt (dict_get key fields))
  | _ => Raise (AttributeError "object has no attribute 'get'")
  end.

(** The dict built under "type enforcement". *)
Record entry := {
  conv_id : string;
  session_id : string;
  ihc : float
}.

Definition coerce `{Builtins} (result : json) : outcome entry :=
  and_then (getitem "conversion_id" result) (fun c =>
  and_then (getitem "session_id" result) (fun s =>
  and_then (get_or "ihc" (JNum 0) result) (fun i =>
  and_then (py_float i) (fun f =>
  Return {| conv_id := py_str c; session_id := py_str s; ihc := f |})))).

Definition entry_key (e : entry) : string * string :=
  (conv_id e, session_id e).

(** What the checks made on one candidate, before the duplicate test,
    decide: the candidate is kept as an entry, it is skipped with a warning,
    or an exception leaves the loop. *)
Inductive verdict :=
| Keep (e : entry)
| Skip (warning : message)
| Fail (e : exn).

Definition validate `{Builtins} (result : json) : verdict :=
  match all_in ["conversion_id"; "session_id"; "ihc"] result with
  | Raise x => Fail x
  | Return false => Skip Skipping_incomplete_entry
  | Return true =>
      match coerce result with
      | Raise x => Fail x
      | Return e =>
          if String.eqb (conv_id e) "" || String.eqb (session_id e) "" then
            Skip Skipping_entry_with_empty_conversion_or_session_ID
          else Keep e
      end
  end.

(** The local variables of the second loop. *)
Record reconciling := {
  attribution_data : list entry;
  seen : gset (string * string)
}.

(** The body of [for result in valid_responses]. *)
Definition reconcile_step `{Builtins} (acc : reconciling) (result : json)
    : M World reconciling :=
  match validate result with
  | Fail x => raise x
  | Skip warning => logger WARNING warning ;; ret acc
  | Keep e =>
      if bool_decide (entry_key e ∈ seen acc) then
        logger WARNING (Duplicate_entry_detected (conv_id e) (session_id e)) ;;
        ret acc
      else
        ret {| attribution_data := attribution_data acc ++ [e];
               seen := {[entry_key e]} ∪ seen acc |}
  end.

Definition reconcile `{Builtins} (valid_responses : list json)
    : M World (list entry) :=
  let* acc := foldM reconcile_step
                {| attribution_data := []; seen := ∅ |} valid_responses in
  ret (attribution_data acc).

(** *** Storing the records *)

(** The value a [REAL] column holds once a float is bound to it: NaN is
    stored as NULL.  The rational columns of the store hold no infinite
    value; what is said below of stored weights is said of finite and NaN
    weights only. *)
Definition sql_real (x : float) : option Q :=
  match x with
  | Finite q => Some q
  | NaN => None
  | Infinity _ => None
  end.

Definition row_of (e : entry) : attribution :=
  {| acj_conv_id := Some (conv_id e);
     acj_session_id := Some (session_id e);
     acj_ihc := sql_real (ihc e) |}.

(** Two rows collide on [UNIQUE(conv_id, session_id)]. *)
Definition conflicts (new old : attribution) : bool :=
  sql_eq (acj_conv_id new) (acj_conv_id old)
  && sql_eq (acj_session_id new) (acj_session_id old).

(** [INSERT OR REPLACE]: the rows that collide with the new one are
    deleted, then the new row is inserted. *)
Definition insert_or_replace (table : list attribution) (new : attribution)
    : list attribution :=
  filter (fun old => conflicts new old = false) table ++ [new].

Definition executemany (table : list attribution) (rows : list attribution)
    : list attribution :=
  foldl insert_or_replace table rows.

Definition store (records : list entry) : M World unit :=
  modify (fun w =>
    {| db :=
         {| session_sources := session_sources (db w);
            conversions := conversions (db w);
            session_costs := session_costs (db w);
            attribution_customer_journey :=
              executemany (attribution_customer_journey (db w))
                          (row_of <$> records);
            channel_reporting := channel_reporting (db w) |};
       log := log w |}).

(** [sum(entry['ihc'] for entry in attribution_data)], on records of
    which there is at least one. *)
Definition total_ihc `{Builtins} (records : list entry) : float :=
  float_sum (ihc <$> records).

(** The body of the [try] block, from the parsed file on. *)
Definition load_body `{Builtins} (api_responses : list json) : M World unit :=
  logger INFO (Loaded_API_responses (length api_responses)) ;;
  let* valid_responses := flatten_responses api_responses in
  let* attribution_data := reconcile valid_responses in
  if length attribution_data =? 0 then
    logger ERROR No_valid_attribution_data_to_load
  else if le_zero (total_ihc attribution_data) then
    logger ERROR (Invalid_total_IHC_value (total_ihc attribution_data)) ;;
    raise (ValueError "Attribution data contains no valid IHC values")
  else
    store attribution_data.

(** [load_attribution_results] on a response file that exists and holds
    the list [api_responses]. *)
Definition load_attribution_results `{Builtins} (api_responses : list json)
    : M World unit :=
  try_except (load_body api_responses)
    (fun e => logger ERROR (Error_loading_attribution_results e) ;; raise e).

(** *** Notions used to state what the loader does *)

(** The candidate lacks one of the three fields. *)
Definition incomplete (result : json) : Prop :=
  all_in ["conversion_id"; "session_id"; "ihc"] result = Return false.

(** The candidate has the three fields and coerces to an entry whose
    conversion id or session id is the empty string. *)
Definition has_empty_id `{Builtins} (result : json) : Prop :=
  all_in ["conversion_id"; "session_id"; "ihc"] result = Return true
  ∧ ∃ e, coerce result = Return e ∧ (conv_id e = "" ∨ session_id e = "").

(** The candidates one response contributes to [valid_responses]. *)
Definition candidates_of (response : json) : list json :=
  match classify response with
  | SuccessEnvelope value _ => value
  | LegacyData x | LegacyResults x => default [] (py_iter x)
  | FlatList items => items
  | MissingValue | ErrorObject _ _ | InvalidStructure | InvalidType => []
  end.

(** The response takes the [elif 'error' in response] branch or the final
    [else] branch of the dict case. *)
Definition error_or_invalid (response : json) : Prop :=
  (∃ error_code error, classify response = ErrorObject error_code error)
  ∨ classify response = InvalidStructure.

(** The entries of the candidates that pass the checks, in stream order. *)
Definition kept `{Builtins} (candidates : list json) : list entry :=
  omap (fun c => match validate c with Keep e => Some e | _ => None end)
       candidates.

(** The duplicate test and the append, on the list of records alone. *)
Definition add_if_new (records : list entry) (e : entry) : list entry :=
  if decide (entry_key e ∈ entry_key <$> records) then records
  else records ++ [e].

(** The records held under a key. *)
Definition with_key (key : string * string) (records : list entry)
    : list entry :=
  filter (fun r => entry_key r = key) records.

(** A computation that only appends lines to the log: its outcome and the
    lines it writes are the same in every world, and the store is left as
    it was found. *)
Definition log_only {A} (m : M World A) : Prop :=
  ∃ (o : outcome A) (lines : list (level * message)),
    ∀ w, m w = (o, {| db := db w; log := log w ++ lines |}).

(** The values stored under a key of the attribution table. *)
Definition stored (table : list attribution) (key : string * string)
    : list (option Q) :=
  acj_ihc <$>
    filter (fun r => acj_conv_id r = Some key.1
                     ∧ acj_session_id r = Some key.2) table.

End Loader.

(** ** Verification of the stored records
       ([DataLoader.verify_attribution_data]) *)

Module Verification.

Inductive message :=
| No_valid_attribution_records_found
| Found_valid_attribution_records (valid_records : nat).

(** [ihc > 0] in SQL: false on NULL. *)
Definition positive (r : attribution) : bool :=
  match acj_ihc r with
  | Some q => negb (Qle_bool q 0)
  | None => false
  end.

(** [SELECT COUNT( * ) FROM attribution_customer_journey WHERE ihc > 0] *)
Definition valid_records (d : Database) : nat :=
  length (filter (fun r => positive r = true)
                 (attribution_customer_journey d)).

(** The answer and the line logged, [ERROR] for the first message and
    [INFO] for the second; the table exists, so the query does not fail. *)
Definition verify_attribution_data (d : Database)
    : bool * (Loader.level * message) :=
  if valid_records d =? 0 then
    (false, (Loader.ERROR, No_valid_attribution_records_found))
  else
    (true, (Loader.INFO, Found_valid_attribution_records (valid_records d))).

End Verification.

(** ** ChannelAggregator ([ChannelReporting.aggregate_channel_metrics]) *)

Module Reporting.
Import Run.
Local Open Scope run_scope.

Inductive level := INFO | WARNING | ERROR.

Inductive message :=
| No_attribution_data_found
| No_channel_metrics_could_be_aggregated
| Successfully_aggregated (record_count channel_count date_count : nat)
| Error_aggregating_channel_metrics (e : exn).

Record World := {
  db : Database;
  log : list (level * message)
}.

Definition logger (lvl : level) (msg : message) : M World unit :=
  modify (fun w => {| db := db w; log := log w ++ [(lvl, msg)] |}).

(** [NULLIF(x, '')] *)
Definition nullif_empty (x : option string) : option string :=
  match x with
  | Some s => if String.eqb s "" then None else Some s
  | None => None
  end.

(** [x IS NOT NULL] *)
Definition is_not_null {A} (x : option A) : bool :=
  match x with Some _ => true | None => false end.

(** *** The [attribution_revenue] common table expression *)

Record revenue_fact := {
  ar_channel_name : string;
  ar_date : option string;
  ar_ihc : Q;
  attributed_revenue : Q
}.

(** The [SELECT] list, on one row of the two inner joins. *)
Definition revenue_row (acj : attribution) (ss : session_source)
    (c : conversion_row) : revenue_fact :=
  {| ar_channel_name := default "unknown" (nullif_empty (ss_channel_name ss));
     ar_date := match nullif_empty (ss_event_date ss) with
                | Some d => Some d
                | None => c_conv_date c
                end;
     ar_ihc := default 0%Q (acj_ihc acj);
     attributed_revenue :=
       (default 0 (c_revenue c) * default 0 (acj_ihc acj))%Q |}.

(** The rows the expression derives from one attribution record, one
    session and one conversion: one row when both [ON] conditions and the
    [WHERE] clause hold, none otherwise. *)
Definition revenue_facts_of (acj : attribution) (ss : session_source)
    (c : conversion_row) : list revenue_fact :=
  if sql_eq (ss_session_id ss) (acj_session_id acj)
     && sql_eq (acj_conv_id acj) (c_conv_id c)
     && is_not_null (acj_session_id acj)
     && negb (sql_eq (acj_session_id acj) (Some ""))
     && is_not_null (ss_channel_name ss)
     && is_not_null (ss_event_date ss)
  then [revenue_row acj ss c]
  else [].

Definition attribution_revenue (d : Database) : list revenue_fact :=
  acj ← attribution_customer_journey d;
  ss ← session_sources d;
  c ← conversions d;
  revenue_facts_of acj ss c.

(** *** The [channel_costs] common table expression *)

Record cost_fact := {
  cc_channel_name : string;
  cc_date : string;
  cc_cost : Q
}.

(** The [SELECT] list, on one row of the left join ([sc] is [None] when the
    session has no cost row). *)
Definition cost_row (ss : session_source) (sc : option session_cost)
    : cost_fact :=
  {| cc_channel_name := default "unknown" (nullif_empty (ss_channel_name ss));
     cc_date := default "1970-01-01" (nullif_empty (ss_event_date ss));
     cc_cost := default 0%Q (sc ≫= sc_cost) |}.

(** The rows the expression derives from one session. *)
Definition cost_facts_of (d : Database) (ss : session_source)
    : list cost_fact :=
  if is_not_null (ss_channel_name ss) && is_not_null (ss_event_date ss) then
    match filter (fun sc => sql_eq (ss_session_id ss) (sc_session_id sc) = true)
                 (session_costs d) with
    | [] => [cost_row ss None]
    | matches => (fun sc => cost_row ss (Some sc)) <$> matches
    end
  else [].

Definition channel_costs (d : Database) : list cost_fact :=
  ss ← session_sources d; cost_facts_of d ss.

(** *** The final [SELECT] *)

(** The [ON] condition of the last join. *)
Definition same_key (ar : revenue_fact) (cc : cost_fact) : Prop :=
  ar_channel_name ar = cc_channel_name cc ∧ ar_date ar = Some (cc_date cc).

(** The rows a left join gives for [ar] and its matching cost rows: one
    row per match, or one row with NULLs on the right when there is none. *)
Definition paired (matches : list cost_fact) (ar : revenue_fact)
    : list (revenue_fact * option cost_fact) :=
  match matches with
  | [] => [(ar, None)]
  | _ :: _ => (fun cc => (ar, Some cc)) <$> matches
  end.

(** [attribution_revenue ar LEFT JOIN channel_costs cc ON ...] *)
Definition joined (d : Database) : list (revenue_fact * option cost_fact) :=
  ar ← attribution_revenue d;
  paired (filter (same_key ar) (channel_costs d)) ar.

(** [GROUP BY ar.channel_name, ar.date] *)
Definition group_key (row : revenue_fact * option cost_fact)
    : string * option string :=
  (ar_channel_name row.1, ar_date row.1).

(** [SUM(x)] over values none of which is NULL; [COALESCE(SUM(x), 0)] over
    an empty or all-NULL column is the same 0. *)
Definition sum (xs : list Q) : Q := foldr Qplus 0%Q xs.

(** [SELECT MIN(conv_date) FROM conversions] *)
Definition min_conv_date (d : Database) : option string :=
  foldr (fun c acc =>
           match c_conv_date c, acc with
           | Some x, Some m => Some (if String.leb x m then x else m)
           | Some x, None => Some x
           | None, _ => acc
           end) None (conversions d).

(** The [HAVING] clause. *)
Definition having (d : Database) (key : string * option string) : bool :=
  negb (String.eqb key.1 "unknown")
  && match key.2, min_conv_date d with
     | Some date, Some m => String.leb m date
     | _, _ => false
     end.

(** One output row per group, in order of first appearance of the key. *)
Definition aggregate_group (d : Database) (key : string * option string)
    : channel_metric :=
  let rows := filter (fun row => group_key row = key) (joined d) in
  {| channel_name := key.1;
     date := default "" key.2;
     cost := sum (omap (fun row => cc_cost <$> row.2) rows);
     ihc := sum ((fun row => ar_ihc row.1) <$> rows);
     ihc_revenue := sum ((fun row => attributed_revenue row.1) <$> rows) |}.

Definition query (d : Database) : list channel_metric :=
  aggregate_group d <$>
    filter (fun key => having d key = true)
           (remove_dups (group_key <$> joined d)).

(** *** The statement sequence *)

Definition set_channel_reporting (rows : list channel_metric) : M World unit :=
  modify (fun w =>
    {| db := {| session_sources := session_sources (db w);
                conversions := conversions (db w);
                session_costs := session_costs (db w);
                attribution_customer_journey :=
                  attribution_customer_journey (db w);
                channel_reporting := rows |};
       log := log w |}).

Definition no_results : exn :=
  ValueError "Channel aggregation produced no results".

Definition aggregate_body : M World unit :=
  let* attribution_count :=
    gets (fun w => length (attribution_customer_journey (db w))) in
  (if attribution_count =? 0 then logger WARNING No_attribution_data_found
   else ret tt) ;;
  set_channel_reporting [] ;;
  let* df := gets (fun w => query (db w)) in
  match df with
  | [] =>
      logger ERROR No_channel_metrics_could_be_aggregated ;;
      raise no_results
  | _ :: _ =>
      set_channel_reporting df ;;
      logger INFO
        (Successfully_aggregated
           (length df)
           (length (remove_dups (channel_name <$> df)))
           (length (remove_dups (date <$> df))))
  end.

Definition aggregate_channel_metrics : M World unit :=
  try_except aggregate_body
    (fun e => logger ERROR (Error_aggregating_channel_metrics e) ;; raise e).

(** *** The totals the rollup is meant to report for a key *)

(** The cost facts of a channel and date. *)
Definition cost_facts_for (d : Database) (channel day : string)
    : list cost_fact :=
  filter (fun cc => cc_channel_name cc = channel ∧ cc_date cc = day)
         (channel_costs d).

(** The attribution-revenue facts of a channel and date. *)
Definition revenue_facts_for (d : Database) (channel day : string)
    : list revenue_fact :=
  filter (fun ar => ar_channel_name ar = channel ∧ ar_date ar = Some day)
         (attribution_revenue d).

(** [n] times [x]. *)
Definition times (n : nat) (x : Q) : Q := (inject_Z (Z.of_nat n) * x)%Q.

End Reporting.

(** ** The report ([ChannelReporting.export_channel_report]) *)

Module Report.

(** A line of the report: the five columns of the table, and the two
    ratios computed by the query. *)
Record report_line := {
  metric : channel_metric;
  cpo : Q;
  roas : Q
}.

(** [CASE WHEN ihc > 0 THEN cost / ihc ELSE 0 END] and
    [CASE WHEN cost > 0 THEN ihc_revenue / cost ELSE 0 END] *)
Definition line_of `{Sqlite} (row : channel_metric) : report_line :=
  {| metric := row;
     cpo := if Qle_bool (ihc row) 0 then 0%Q
            else real_div (cost row) (ihc row);
     roas := if Qle_bool (cost row) 0 then 0%Q
             else real_div (ihc_revenue row) (cost row) |}.

(** [ORDER BY channel_name, date]: [a] may come before [b]. *)
Definition before (a b : channel_metric) : Prop :=
  match String.compare (channel_name a) (channel_name b) with
  | Lt => True
  | Eq => String.leb (date a) (date b) = true
  | Gt => False
  end.

#[global] Instance before_dec a b : Decision (before a b).
Proof.
  unfold before. destruct (String.compare _ _); apply _.
Defined.

(** The lines handed to [to_csv], in order. *)
Definition export_channel_report `{Sqlite} (d : Database)
    : list report_line :=
  line_of <$> merge_sort before (channel_reporting d).

End Report.

(** ** The transformer ([DataTransformer.transform_data]) *)

Module Transform.
Import Run.
Local Open Scope run_scope.

(** The columns of [session_sources] and [conversions] that the
    transformer reads.  Identifiers, dates and times are non-NULL text, and
    the three flags are integers. *)
Record session := {
  session_id : string;
  user_id : string;
  channel_name : string;
  event_date : string;
  event_time : string;
  holder_engagement : Z;
  closer_engagement : Z;
  impression_interaction : Z
}.

Record conversion := {
  conv_id : string;
  conv_user_id : string;
  conv_date : string;
  conv_time : string
}.

Record tables := {
  session_sources : list session;
  conversions : list conversion
}.

Inductive level := INFO | ERROR.

Inductive message :=
| Loading_data_from_database
| Loaded_sessions_and_conversions (sessions conversions : nat)
| Created_journey_entries (entries : nat)
| Saving_transformed_data
| Transformed_data_saved
| Error_in_transform_data (e : exn).

(** The transformer object and what it leaves behind: the entries
    accumulated in [self.transformed_data], the log, and the content of the
    output file once written. *)
Record World := {
  transformed_data : list JourneyEntry;
  log : list (level * message);
  output_json : option (list JourneyEntry)
}.

Definition logger (lvl : level) (msg : message) : M World unit :=
  modify (fun w => {| transformed_data := transformed_data w;
                      log := log w ++ [(lvl, msg)];
                      output_json := output_json w |}).

(** [f"{date} {time}"] *)
Definition stamp (date time : string) : string :=
  (date ++ " " ++ time)%string.

(** The rows of [session_sources_df] selected for a conversion: same user,
    and a timestamp that compares below the conversion's.  Strings are
    compared character by character, as [<] on Python strings does. *)
Definition user_sessions (t : tables) (c : conversion) : list session :=
  filter (fun s => user_id s = conv_user_id c
                   ∧ String.ltb (stamp (event_date s) (event_time s))
                                (stamp (conv_date c) (conv_time c)) = true)
         (session_sources t).

(** The dict built for a conversion and one of its sessions;
    [clean_dict] leaves strings and integers as they are. *)
Definition journey_entry (c : conversion) (s : session) : JourneyEntry :=
  let conv_timestamp := stamp (conv_date c) (conv_time c) in
  let session_timestamp := stamp (event_date s) (event_time s) in
  Build_JourneyEntry
    (* conversion_id *)          (conv_id c)
    (* session_id *)             (session_id s)
    (* timestamp *)              session_timestamp
    (* channel_label *)          (channel_name s)
    (* holder_engagement *)      (holder_engagement s)
    (* closer_engagement *)      (closer_engagement s)
    (* conversion *)             (if String.eqb session_timestamp conv_timestamp
                                  then 1%Z else 0%Z)
    (* impression_interaction *) (impression_interaction s).

(** The entries appended by the two nested loops. *)
Definition new_entries (t : tables) : list JourneyEntry :=
  c ← conversions t; journey_entry c <$> user_sessions t c.

Definition append_entries (entries : list JourneyEntry) : M World unit :=
  modify (fun w => {| transformed_data := transformed_data w ++ entries;
                      log := log w;
                      output_json := output_json w |}).

(** [save_transformed_data]: the directory can be made and the file
    written. *)
Definition save_transformed_data : M World unit :=
  logger INFO Saving_transformed_data ;;
  modify (fun w => {| transformed_data := transformed_data w;
                      log := log w;
                      output_json := Some (transformed_data w) |}) ;;
  logger INFO Transformed_data_saved.

Definition no_journey_entries : exn :=
  ValueError "No journey entries were created".

Definition transform_body (t : tables) : M World (list JourneyEntry) :=
  logger INFO Loading_data_from_database ;;
  logger INFO (Loaded_sessions_and_conversions
                 (length (session_sources t)) (length (conversions t))) ;;
  append_entries (new_entries t) ;;
  let* entries := gets transformed_data in
  logger INFO (Created_journey_entries (length entries)) ;;
  match entries with
  | [] => raise no_journey_entries
  | _ :: _ =>
      save_transformed_data ;;
      gets transformed_data
  end.

Definition transform_data (t : tables) : M World (list JourneyEntry) :=
  try_except (transform_body t)
    (fun e => logger ERROR (Error_in_transform_data e) ;; raise e).

End Transform.

(** ** Concrete inputs used to exercise the statements *)

Module Examples.

(** One journey entry of conversion [c] and session [s]. *)
Definition entry (c s : string) : JourneyEntry :=
  {| conversion_id := c; session_id := s;
     timestamp := "2023-09-01 10:00:00"; channel_label := "Direct";
     holder_engagement := 0; closer_engagement := 0;
     conversion := 0; impression_interaction := 0 |}.

(** Ninety conversions of one session each. *)
Definition ninety_journeys : list JourneyEntry :=
  (fun n => entry (String (Ascii.ascii_of_nat (33 + n)) EmptyString) "s")
    <$> seq 0 90.

(** One conversion of 2751 sessions. *)
Definition oversized_journey : list JourneyEntry :=
  replicate 2751 (entry "c1" "s").

(** Floats added without rounding. *)
Definition plain_add (x y : float) : float :=
  match x, y with
  | Finite p, Finite q => Finite (p + q)
  | NaN, _ | _, NaN => NaN
  | Infinity a, Infinity b => if Bool.eqb a b then Infinity a else NaN
  | Infinity a, Finite _ | Finite _, Infinity a => Infinity a
  end.

(** Builtins that render every number, list and dict the same way, take
    every number for a float of the same value, read no string as a number
    and add without rounding; the inputs below carry string ids and
    numeric weights. *)
#[export] Instance plain_builtins : Builtins :=
  {| repr := fun _ => "<object>";
     float_of_number := fun q => Some (Finite q);
     float_of_str := fun _ => None;
     float_sum := foldl plain_add (Finite 0) |}.

(** Quotients taken without rounding. *)
#[export] Instance plain_sqlite : Sqlite := {| real_div := Qdiv |}.

Definition empty_db : Database :=
  {| session_sources := []; conversions := []; session_costs := [];
     attribution_customer_journey := []; channel_reporting := [] |}.

Definition fresh : Loader.World := {| Loader.db := empty_db; Loader.log := [] |}.

(** [{"conversion_id": c, "session_id": s, "ihc": w}] *)
Definition candidate (c s : string) (w : Q) : json :=
  JObj [("conversion_id", JStr c); ("session_id", JStr s); ("ihc", JNum w)].

(** [{"statusCode": 200, "value": value}] *)
Definition envelope (value : list json) : json :=
  JObj [("statusCode", JNum 200); ("value", JArr value)].

(** A success envelope followed by a legacy [data] response. *)
Definition two_shapes : list json :=
  [ envelope [candidate "c1" "s1" (6 # 10)];
    JObj [("data", JArr [candidate "c1" "s2" (4 # 10)])] ].

(** The same key answered twice, in two responses, with different weights. *)
Definition repeated_key : list json :=
  [ envelope [candidate "c1" "s1" (6 # 10)];
    envelope [candidate "c1" "s1" (9 # 10); candidate "c1" "s2" (4 # 10)] ].

(** A later run that answers key [(c1, s1)] with another weight. *)
Definition changed_weight : list json :=
  [ envelope [candidate "c1" "s1" (9 # 10)] ].

(** The candidates flattened out of [repeated_key]. *)
Definition repeated_key_stream : list json :=
  [ candidate "c1" "s1" (6 # 10);
    candidate "c1" "s1" (9 # 10);
    candidate "c1" "s2" (4 # 10) ].

(** A response whose first candidate has [null] for its weight. *)
Definition null_weight : list json :=
  [ envelope
      [ JObj [("conversion_id", JStr "c1"); ("session_id", JStr "s1");
              ("ihc", JNull)];
        candidate "c1" "s2" 1 ] ].

(** A response whose first candidate is a bare number. *)
Definition bare_number : list json :=
  [ envelope [ JNum 7; candidate "c1" "s2" 1 ] ].

(** An error object and an unrecognised object. *)
Definition only_errors : list json :=
  [ JObj [("error", JStr "quota exceeded"); ("error_code", JStr "E429")];
    JObj [("message", JStr "hello")] ].

(** A response whose candidates are all filtered out: one lacks its
    weight, the other has an empty conversion id. *)
Definition all_filtered : list json :=
  [ envelope
      [ JObj [("conversion_id", JStr "c1"); ("session_id", JStr "s1")];
        candidate "" "s2" 1 ] ].

Definition row (c s : string) (w : Q) : attribution :=
  {| acj_conv_id := Some c; acj_session_id := Some s; acj_ihc := Some w |}.

(** A service that accepts every request. *)
Definition always_ok (i attempt : nat) (chunk : list JourneyEntry)
    : Client.reply :=
  Client.Response 200 (Some (JArr [])).

(** A service that answers 500 to every request for the first chunk, and
    for any other chunk is unreachable once and then accepts with 206. *)
Definition flaky (i attempt : nat) (chunk : list JourneyEntry)
    : Client.reply :=
  if i =? 1 then Client.Response 500 None
  else if attempt =? 0 then Client.Unreachable
  else Client.Response 206 (Some (envelope [candidate "c1" "s1" 1])).

Definition quiet : Client.World :=
  {| Client.log := []; Client.slept := []; Client.api_response_json := None |}.

Definition session (s channel day : string) : session_source :=
  {| ss_session_id := Some s; ss_channel_name := Some channel;
     ss_event_date := Some day |}.

(** Two sessions of the same channel on the same day, each with a cost of
    10, sharing the credit of one conversion worth 100. *)
Definition two_sessions_one_day : Database :=
  {| session_sources :=
       [session "s1" "Direct" "2023-09-01"; session "s2" "Direct" "2023-09-01"];
     conversions :=
       [ {| c_conv_id := Some "c1"; c_conv_date := Some "2023-09-01";
            c_revenue := Some 100%Q |} ];
     session_costs :=
       [ {| sc_session_id := Some "s1"; sc_cost := Some 10%Q |};
         {| sc_session_id := Some "s2"; sc_cost := Some 10%Q |} ];
     attribution_customer_journey :=
       [row "c1" "s1" (1 # 2); row "c1" "s2" (1 # 2)];
     channel_reporting := [] |}.

(** A session whose event date is blank, credited with a conversion. *)
Definition blank_date_session : session_source := session "s1" "Direct" "".

Definition blank_date_db : Database :=
  {| session_sources := [blank_date_session];
     conversions :=
       [ {| c_conv_id := Some "c1"; c_conv_date := Some "2023-09-01";
            c_revenue := Some 100%Q |} ];
     session_costs := [ {| sc_session_id := Some "s1"; sc_cost := Some 10%Q |} ];
     attribution_customer_journey := [row "c1" "s1" 1];
     channel_reporting := [] |}.

(** A response whose only candidate carries the weight 0. *)
Definition zero_weight : list json :=
  [ envelope [candidate "c1" "s1" 0] ].

(** A world whose attribution table already holds a record of another
    conversion. *)
Definition earlier_run : Loader.World :=
  {| Loader.db :=
       {| session_sources := []; conversions := []; session_costs := [];
          attribution_customer_journey := [row "c9" "s9" 1];
          channel_reporting := [] |};
     Loader.log := [] |}.

(** One user with two sessions before a conversion and one at the very
    time of the conversion, and a second user with no session. *)
Definition visit (s day time : string) : Transform.session :=
  {| Transform.session_id := s; Transform.user_id := "u1";
     Transform.channel_name := "Direct";
     Transform.event_date := day; Transform.event_time := time;
     Transform.holder_engagement := 1; Transform.closer_engagement := 0;
     Transform.impression_interaction := 0 |}.

Definition purchase (c user day time : string) : Transform.conversion :=
  {| Transform.conv_id := c; Transform.conv_user_id := user;
     Transform.conv_date := day; Transform.conv_time := time |}.

Definition one_buyer : Transform.tables :=
  {| Transform.session_sources :=
       [ visit "s1" "2023-09-01" "09:00:00";
         visit "s2" "2023-09-02" "10:00:00";
         visit "s3" "2023-09-03" "12:00:00" ];
     Transform.conversions :=
       [ purchase "c1" "u1" "2023-09-03" "12:00:00";
         purchase "c2" "u2" "2023-09-03" "13:00:00" ] |}.

(** A transformer object that has not run yet. *)
Definition new_transformer : Transform.World :=
  {| Transform.transformed_data := []; Transform.log := [];
     Transform.output_json := None |}.

(** A report row, a store whose report holds it, and a world whose store
    has sessions and that report left by an earlier run but no attribution
    record. *)
Definition direct_row : channel_metric :=
  {| channel_name := "Direct"; date := "2023-09-01";
     cost := 40; ihc := 2; ihc_revenue := 200 |}.

Definition reported : Database :=
  {| session_sources := [session "s1" "Direct" "2023-09-01"];
     conversions := []; session_costs := [];
     attribution_customer_journey := [];
     channel_reporting := [direct_row] |}.

Definition stale_report : Reporting.World :=
  {| Reporting.db := reported; Reporting.log := [] |}.

End Examples.
(** ** Grouping: what [group_by_conversion_id] returns *)

Section Grouping.
Import Batcher.

Implicit Types (data : list JourneyEntry) (c k : string).
Implicit Types (journeys : list (string * list JourneyEntry)).

Lemma setdefault_append_keys journeys c s :
  (setdefault_append journeys c s).*1 =
  if decide (c ∈ journeys.*1) then journeys.*1 else journeys.*1 ++ [c].
Proof.
  induction journeys as [|[k v] rest IH]; csimpl.
  - done.
  - destruct (decide (k = c)) as [->|Hne]; csimpl.
    + rewrite decide_True; [done | left].
    + rewrite IH. destruct (decide (c ∈ rest.*1)) as [Hin|Hnin].
      * rewrite decide_True; [done | by right].
      * rewrite decide_False; [done |].
        rewrite elem_of_cons. intros [->|?]; done.
Qed.

Lemma setdefault_append_elem journeys c s k v :
  NoDup journeys.*1 →
  (k, v) ∈ setdefault_append journeys c s →
  (k ≠ c ∧ ((k, v) ∈ journeys))
  ∨ (k = c ∧ ((∃ v0, (c, v0) ∈ journeys ∧ v = v0 ++ [s])
              ∨ ((c ∉ journeys.*1) ∧ v = [s]))).
Proof.
  induction journeys as [|[k' v'] rest IH]; csimpl; intros Hnd Hin.
  - apply list_elem_of_singleton in Hin as [= -> ->].
    right. split; [done | right]. split; [apply not_elem_of_nil | done].
  - apply NoDup_cons in Hnd as [Hk' Hnd].
    destruct (decide (k' = c)) as [->|Hne].
    + apply elem_of_cons in Hin as [[= -> ->]|Hin].
      * right. split; [done | left]. exists v'. split; [left | done].
      * left. split; [| by right].
        intros ->. apply Hk'. apply list_elem_of_fmap. by exists (c, v).
    + apply elem_of_cons in Hin as [[= -> ->]|Hin].
      * left. split; [done | left].
      * destruct (IH Hnd Hin) as [[? ?]|[-> [(v0 & ? & ->)|[? ->]]]].
        -- left. split; [done | by right].
        -- right. split; [done | left]. exists v0. split; [by right | done].
        -- right. split; [done | right]. split; [| done].
           rewrite not_elem_of_cons. by split.
Qed.

(** The dict built from [data]: keys are unique, every conversion id of the
    input is a key, and the value under [k] is the non-empty list of the
    entries of [k] in input order. *)
Definition grouped data journeys : Prop :=
  NoDup journeys.*1
  ∧ (∀ e, e ∈ data → conversion_id e ∈ journeys.*1)
  ∧ (∀ k v, (k, v) ∈ journeys → v = entries_of k data ∧ v ≠ []).

Lemma entries_of_snoc c data s :
  entries_of c (data ++ [s]) =
  entries_of c data ++ (if decide (conversion_id s = c) then [s] else []).
Proof.
  unfold entries_of. by rewrite filter_app.
Qed.

Lemma entries_of_nil_iff c data :
  entries_of c data = [] ↔ ∀ e, e ∈ data → conversion_id e ≠ c.
Proof.
  unfold entries_of. split.
  - intros Hnil e He Hc.
    assert (e ∈ filter (λ e, conversion_id e = c) data) as Hin
      by (by apply list_elem_of_filter).
    rewrite Hnil in Hin. by apply not_elem_of_nil in Hin.
  - intros H. destruct (filter _ data) as [|e l] eqn:Heq; [done |].
    assert (e ∈ filter (λ e, conversion_id e = c) data) as Hin
      by (rewrite Heq; left).
    apply list_elem_of_filter in Hin as [? ?]. by destruct (H e).
Qed.

Lemma grouped_snoc data journeys s :
  grouped data journeys →
  grouped (data ++ [s]) (setdefault_append journeys (conversion_id s) s).
Proof.
  intros (Hnd & Hkeys & Hvals). split; [| split].
  - rewrite setdefault_append_keys. case_decide; [done |].
    apply NoDup_app. split; [done |]. split; [| apply NoDup_singleton].
    intros k Hk Hk'. apply list_elem_of_singleton in Hk' as ->. done.
  - intros e He. rewrite setdefault_append_keys.
    apply elem_of_app in He as [He|He].
    + case_decide; [by apply Hkeys |]. apply elem_of_app. left. by apply Hkeys.
    + apply list_elem_of_singleton in He as ->.
      case_decide; [done |]. apply elem_of_app. right. left.
  - intros k v Hin. rewrite entries_of_snoc.
    apply setdefault_append_elem in Hin
      as [[Hne Hin]|[-> [(v0 & Hin & ->)|[Hnin ->]]]]; [| | | done].
    + destruct (Hvals _ _ Hin) as [-> ?].
      rewrite decide_False by done. by rewrite app_nil_r.
    + destruct (Hvals _ _ Hin) as [-> ?].
      rewrite decide_True by done. split; [done |].
      intros [? ?]%app_eq_nil. done.
    + rewrite decide_True by done. split; [| done].
      replace (entries_of (conversion_id s) data) with (@nil JourneyEntry);
        [done |].
      symmetry. apply entries_of_nil_iff. intros e He Hc.
      apply Hnin. rewrite <- Hc. by apply Hkeys.
Qed.

Lemma group_by_conversion_id_grouped data :
  grouped data (group_by_conversion_id data).
Proof.
  unfold group_by_conversion_id.
  induction data as [|s data IH] using rev_ind.
  - split; [apply NoDup_nil_2 | split]; intros *; by intros ?%not_elem_of_nil.
  - rewrite foldl_snoc. by apply grouped_snoc.
Qed.

End Grouping.

(** ** Chunking: the shape of what [create_chunks] returns *)

Section Chunking.
Import Batcher.

Implicit Types (data : list JourneyEntry) (c k : string).
Implicit Types (b cur : list (string * list JourneyEntry)).
Implicit Types (blocks : list (list (string * list JourneyEntry))).

Lemma flat_snoc b g : flat (b ++ [g]) = flat b ++ g.2.
Proof.
  unfold flat. rewrite fmap_app, join_app. csimpl. by rewrite app_nil_r.
Qed.

Lemma flat_singleton g : flat [g] = g.2.
Proof. unfold flat. csimpl. by rewrite app_nil_r. Qed.

Lemma flat_nil_inv b : Forall (λ g, g.2 ≠ []) b → flat b = [] → b = [].
Proof.
  intros Hne Hnil. destruct b as [|g b]; [done |].
  apply Forall_cons in Hne as [Hg _].
  unfold flat in Hnil. csimpl in Hnil.
  apply app_eq_nil in Hnil as [? _]. done.
Qed.

Lemma length_flat_elem b g : g ∈ b → length g.2 ≤ length (flat b).
Proof.
  unfold flat. induction 1 as [g b|g g' b _ IH]; csimpl;
    rewrite length_app; lia.
Qed.

Lemma chunker_inv_init : chunker_inv [] chunker_init.
Proof.
  exists [], []. unfold block_ok, flat. csimpl.
  repeat split; try done; try lia.
Qed.

Lemma chunker_inv_step done st g :
  Forall (λ g, g.2 ≠ []) done →
  chunker_inv done st →
  chunker_inv (done ++ [g]) (chunk_step st g).
Proof.
  intros Hne (blocks & cur & -> & Hch & Hcur & Hs & Hj & Hblocks & Hok).
  unfold chunk_step. destruct (exceeds st g.2) eqn:Hex.
  - (* the current chunk is closed and the journey opens a new one *)
    assert (block_ok [g]) as Hg by (split; [unfold MAX_JOURNEYS_PER_REQUEST|];
      simpl; [lia | right; lia]).
    destruct (current_chunk st) as [|e l] eqn:Hcc.
    + assert (cur = []) as ->.
      { apply flat_nil_inv; [| done].
        apply Forall_app in Hne as [_ ?]. done. }
      exists blocks, [g]. rewrite app_nil_r.
      unfold close_chunk, add_journey. rewrite Hcc. simpl.
      rewrite flat_singleton. split_and!; try done.
    + exists (blocks ++ [cur]), [g].
      unfold close_chunk, add_journey. rewrite Hcc. simpl.
      rewrite join_app, fmap_app, flat_singleton. csimpl.
      rewrite app_nil_r, <- Hcur, Hch.
      split_and!; try done.
      apply Forall_app. split; [done |]. by apply Forall_singleton.
  - (* the journey fits next to the ones already in the current chunk *)
    unfold exceeds in Hex. apply orb_false_iff in Hex as [Hj' Hs'].
    apply Nat.ltb_ge in Hj', Hs'.
    exists blocks, (cur ++ [g]). unfold add_journey. simpl.
    rewrite flat_snoc, !length_app, <- Hcur, Hj. simpl.
    split_and!; try done.
    + by rewrite (assoc_L (++)).
    + by rewrite Hs, Hcur.
    + split; [rewrite length_app; simpl; lia |].
      left. rewrite flat_snoc, length_app. lia.
Qed.

Lemma chunker_inv_foldl journeys :
  Forall (λ g, g.2 ≠ []) journeys →
  chunker_inv journeys (foldl chunk_step chunker_init journeys).
Proof.
  induction journeys as [|g journeys IH] using rev_ind; intros Hne.
  - apply chunker_inv_init.
  - rewrite foldl_snoc. apply Forall_app in Hne as [Hne _].
    apply chunker_inv_step; auto.
Qed.

(** Every chunk is the entries of a run of consecutive journeys of the
    grouped input, the runs cover the journeys in order, and each run
    satisfies [block_ok]. *)
Lemma create_chunks_blocks data :
  ∃ blocks,
    mjoin blocks = group_by_conversion_id data
    ∧ create_chunks data = flat <$> blocks
    ∧ Forall block_ok blocks.
Proof.
  pose proof (group_by_conversion_id_grouped data) as (_ & _ & Hvals).
  assert (Forall (λ g, g.2 ≠ []) (group_by_conversion_id data)) as Hne.
  { apply Forall_forall. intros [k v] Hin. by destruct (Hvals _ _ Hin). }
  destruct (chunker_inv_foldl _ Hne)
    as (blocks & cur & Heq & Hch & Hcur & _ & _ & Hblocks & Hok).
  unfold create_chunks. cbv zeta. rewrite Hch.
  destruct (current_chunk _) as [|e l] eqn:Hcc.
  - assert (cur = []) as ->.
    { apply flat_nil_inv; [| done]. rewrite Heq in Hne.
      apply Forall_app in Hne as [_ ?]. done. }
    exists blocks. rewrite app_nil_r in Heq. done.
  - exists (blocks ++ [cur]). simpl.
    rewrite join_app, fmap_app. csimpl. rewrite app_nil_r, <- Hcur.
    split_and!; try done.
    apply Forall_app. split; [done |]. by apply Forall_singleton.
Qed.

Lemma block_entry_key data blocks b e :
  grouped data (mjoin blocks) → b ∈ blocks → e ∈ flat b →
  ∃ g, g ∈ b ∧ conversion_id e = g.1.
Proof.
  intros (_ & _ & Hvals) Hb He.
  apply list_elem_of_join in He as (l & He & Hl).
  apply list_elem_of_fmap in Hl as ([k v] & -> & Hg).
  exists (k, v). split; [done |]. simpl in *.
  destruct (Hvals k v) as [-> _].
  { apply list_elem_of_join. by exists b. }
  by apply list_elem_of_filter in He as [? _].
Qed.

Lemma size_list_to_set_le (l : list string) :
  size (list_to_set (C := gset string) l) ≤ length l.
Proof.
  induction l as [|x l IH].
  - rewrite list_to_set_nil, size_empty. done.
  - rewrite list_to_set_cons, size_union_alt, size_singleton. simpl.
    assert (size (list_to_set (C := gset string) l ∖ {[x]})
            ≤ size (list_to_set (C := gset string) l)) as Hle.
    { apply subseteq_size. intros y Hy.
      by apply elem_of_difference in Hy as [? _]. }
    lia.
Qed.

Lemma distinct_conversions_block data blocks b :
  grouped data (mjoin blocks) → b ∈ blocks →
  distinct_conversions (flat b) ≤ length b.
Proof.
  intros Hgr Hb. unfold distinct_conversions.
  trans (size (list_to_set (C := gset string) b.*1)).
  - apply subseteq_size. intros k Hk.
    apply elem_of_list_to_set, list_elem_of_fmap in Hk as (e & -> & He).
    destruct (block_entry_key _ _ _ _ Hgr Hb He) as (g & Hg & ->).
    apply elem_of_list_to_set, list_elem_of_fmap. by exists g.
  - rewrite <- (length_fmap fst b). apply size_list_to_set_le.
Qed.

Lemma blocks_keys_apart blocks i j b1 b2 (g1 g2 : string * list JourneyEntry) :
  NoDup (mjoin blocks).*1 →
  blocks !! i = Some b1 → blocks !! j = Some b2 →
  g1 ∈ b1 → g2 ∈ b2 → g1.1 = g2.1 → i = j.
Proof.
  revert i j. induction blocks as [|b blocks IH]; intros i j Hnd Hi Hj H1 H2 Hk.
  - done.
  - csimpl in Hnd. rewrite fmap_app in Hnd.
    apply NoDup_app in Hnd as (_ & Hdisj & Hnd).
    assert (∀ n b' (g g' : string * list JourneyEntry),
              blocks !! n = Some b' → g ∈ b → g' ∈ b' → g.1 ≠ g'.1) as Hapart.
    { intros n b' g g' Hn Hg Hg' Heq. apply (Hdisj g.1).
      - by apply list_elem_of_fmap_2.
      - rewrite Heq. apply list_elem_of_fmap_2, list_elem_of_join.
        exists b'. split; [done |]. by eapply list_elem_of_lookup_2. }
    destruct i as [|i], j as [|j]; simplify_eq/=.
    + done.
    + by destruct (Hapart _ _ _ _ Hj H1 H2).
    + by destruct (Hapart _ _ _ _ Hi H2 H1).
    + f_equal. by eapply IH.
Qed.

Lemma append_if_nonempty_Forall cs (chunk : list JourneyEntry) :
  Forall (λ chunk' : list JourneyEntry, chunk' ≠ []) cs → Forall (λ chunk' : list JourneyEntry, chunk' ≠ []) (append_if_nonempty cs chunk).
Proof.
  intros Hcs. destruct chunk; simpl; [done |].
  apply Forall_app. split; [done |]. by apply Forall_singleton.
Qed.

(** No chunk is empty. *)
Lemma create_chunks_nonempty data chunk :
  chunk ∈ create_chunks data → chunk ≠ [].
Proof.
  unfold create_chunks. cbv zeta.
  assert (Forall (λ chunk' : list JourneyEntry, chunk' ≠ [])
            (chunks (foldl chunk_step chunker_init
                       (group_by_conversion_id data)))) as Hinv.
  { generalize (group_by_conversion_id data). intros journeys.
    induction journeys as [|g journeys IH] using rev_ind; [by constructor |].
    rewrite foldl_snoc. unfold chunk_step.
    destruct (exceeds _ _); simpl; [| done].
    by apply append_if_nonempty_Forall. }
  intros Hin.
  eapply (proj1 (Forall_forall _ _) (append_if_nonempty_Forall _ _ Hinv)).
  exact Hin.
Qed.

(** C2. When no conversion has more than 2750 entries in the input, every
    chunk returned by [create_chunks] carries at most 85 distinct conversion
    ids and at most 2750 entries, and two entries of the same conversion
    never sit in two different chunks. *)
Theorem create_chunks_within_limits data :
  (∀ c, length (entries_of c data) ≤ MAX_SESSIONS_PER_REQUEST) →
  (∀ chunk, chunk ∈ create_chunks data →
     distinct_conversions chunk ≤ MAX_JOURNEYS_PER_REQUEST
     ∧ length chunk ≤ MAX_SESSIONS_PER_REQUEST)
  ∧ (∀ i j chunk1 chunk2 e1 e2,
       create_chunks data !! i = Some chunk1 →
       create_chunks data !! j = Some chunk2 →
       e1 ∈ chunk1 → e2 ∈ chunk2 →
       conversion_id e1 = conversion_id e2 → i = j).
Proof.
  intros Hsmall.
  destruct (create_chunks_blocks data) as (blocks & Hjoin & -> & Hok).
  pose proof (group_by_conversion_id_grouped data) as Hgr.
  rewrite <- Hjoin in Hgr. split.
  - intros chunk (b & -> & Hb)%list_elem_of_fmap.
    rewrite Forall_forall in Hok. destruct (Hok b Hb) as [Hlen Hcap]. split.
    + etrans; [by eapply distinct_conversions_block | done].
    + destruct Hcap as [?|Hone]; [done |].
      destruct b as [|[k v] [|? ?]]; simpl in Hone; [| | lia].
      * unfold flat. simpl. lia.
      * rewrite flat_singleton. simpl.
        destruct Hgr as (_ & _ & Hvals). destruct (Hvals k v) as [-> _].
        { apply list_elem_of_join. exists [(k, v)]. split; [left | done]. }
        apply Hsmall.
  - intros i j chunk1 chunk2 e1 e2 Hi Hj He1 He2 Heq.
    apply list_lookup_fmap_Some in Hi as (b1 & -> & Hi).
    apply list_lookup_fmap_Some in Hj as (b2 & -> & Hj).
    destruct (block_entry_key _ _ _ _ Hgr (list_elem_of_lookup_2 _ _ _ Hi) He1)
      as (g1 & Hg1 & Hk1).
    destruct (block_entry_key _ _ _ _ Hgr (list_elem_of_lookup_2 _ _ _ Hj) He2)
      as (g2 & Hg2 & Hk2).
    destruct Hgr as (Hnd & _ & _).
    eapply blocks_keys_apart; eauto. congruence.
Qed.

(** C3. A conversion whose group has more than 2750 entries is still put,
    whole, into one chunk: the group itself is one of the returned chunks,
    and that chunk is longer than the session cap. *)
Theorem create_chunks_oversized_group data c group :
  (c, group) ∈ group_by_conversion_id data →
  MAX_SESSIONS_PER_REQUEST < length group →
  ∃ chunk, chunk ∈ create_chunks data
           ∧ chunk = group
           ∧ MAX_SESSIONS_PER_REQUEST < length chunk.
Proof.
  intros Hin Hbig.
  destruct (create_chunks_blocks data) as (blocks & Hjoin & -> & Hok).
  rewrite <- Hjoin in Hin.
  apply list_elem_of_join in Hin as (b & Hg & Hb).
  exists group. split; [| done].
  apply list_elem_of_fmap. exists b. split; [| done].
  rewrite Forall_forall in Hok. destruct (Hok b Hb) as [_ [Hcap|Hone]].
  - pose proof (length_flat_elem _ _ Hg). simpl in *. lia.
  - destruct b as [|g [|? ?]]; simpl in Hone; [| | lia].
    + by apply not_elem_of_nil in Hg.
    + apply list_elem_of_singleton in Hg as <-. by rewrite flat_singleton.
Qed.

Lemma create_chunks_within_limits_witness :
  (∀ chunk, chunk ∈ create_chunks Examples.ninety_journeys →
     distinct_conversions chunk ≤ MAX_JOURNEYS_PER_REQUEST
     ∧ length chunk ≤ MAX_SESSIONS_PER_REQUEST)
  ∧ (∀ i j chunk1 chunk2 e1 e2,
       create_chunks Examples.ninety_journeys !! i = Some chunk1 →
       create_chunks Examples.ninety_journeys !! j = Some chunk2 →
       e1 ∈ chunk1 → e2 ∈ chunk2 →
       conversion_id e1 = conversion_id e2 → i = j).
Proof.
  apply (create_chunks_within_limits Examples.ninety_journeys).
  intros c. unfold entries_of.
  etrans; [apply length_filter |].
  unfold MAX_SESSIONS_PER_REQUEST. vm_compute. lia.
Defined.

Lemma create_chunks_oversized_group_witness :
  ∃ chunk, chunk ∈ create_chunks Examples.oversized_journey
           ∧ chunk = Examples.oversized_journey
           ∧ MAX_SESSIONS_PER_REQUEST < length chunk.
Proof.
  apply (create_chunks_oversized_group Examples.oversized_journey "c1").
  - replace (group_by_conversion_id Examples.oversized_journey)
      with [("c1", Examples.oversized_journey)] by (vm_compute; reflexivity).
    left.
  - unfold Examples.oversized_journey, MAX_SESSIONS_PER_REQUEST.
    rewrite length_replicate. lia.
Defined.

(** The boundary example: ninety one-session conversions give two chunks,
    of 85 and of 5 entries. *)
Example create_chunks_ninety :
  length <$> create_chunks Examples.ninety_journeys = [85; 5].
Proof. vm_compute. reflexivity. Qed.

(** Empty input gives no chunk. *)
Example create_chunks_nil : create_chunks [] = [].
Proof. reflexivity. Qed.

End Chunking.

(** ** More on grouping and chunking *)

Section GroupingAndChunking.
Import Batcher.

Implicit Types (data : list JourneyEntry) (c k : string).
Implicit Types (journeys : list (string * list JourneyEntry)).

(** The conversion ids of [data], each once, in order of first
    appearance. *)
Lemma first_seen_snoc (ids : list string) c :
  reverse (remove_dups (reverse (ids ++ [c])))
  = if decide (c ∈ reverse (remove_dups (reverse ids)))
    then reverse (remove_dups (reverse ids))
    else reverse (remove_dups (reverse ids)) ++ [c].
Proof.
  rewrite reverse_snoc. cbn [remove_dups].
  destruct (decide_rel elem_of c (reverse ids)) as [Hin|Hnin].
  - rewrite decide_True; [done |].
    by apply elem_of_reverse, elem_of_remove_dups.
  - rewrite decide_False.
    + by rewrite reverse_cons.
    + rewrite elem_of_reverse, elem_of_remove_dups. done.
Qed.

Lemma group_by_conversion_id_keys data :
  (group_by_conversion_id data).*1
  = reverse (remove_dups (reverse (conversion_id <$> data))).
Proof.
  unfold group_by_conversion_id.
  induction data as [|s data IH] using rev_ind; [done |].
  rewrite foldl_snoc, setdefault_append_keys, fmap_app.
  change (conversion_id <$> [s]) with [conversion_id s].
  by rewrite first_seen_snoc, IH.
Qed.

(** X1. [group_by_conversion_id] returns one binding per conversion id of
    the input, in order of first appearance, and the value bound to an id is
    the list of the entries of the input that carry it, in input order. *)
Theorem group_by_conversion_id_spec data :
  group_by_conversion_id data
  = (fun c => (c, entries_of c data))
      <$> reverse (remove_dups (reverse (conversion_id <$> data))).
Proof.
  rewrite <- group_by_conversion_id_keys.
  pose proof (group_by_conversion_id_grouped data) as (_ & _ & Hvals).
  revert Hvals. generalize (group_by_conversion_id data). intros journeys Hvals.
  induction journeys as [|[k v] journeys IH]; [done |]. csimpl.
  destruct (Hvals k v) as [-> _]; [left |]. f_equal.
  apply IH. intros k' v' Hin. apply Hvals. by right.
Qed.

Lemma flat_setdefault_append journeys c s :
  flat (setdefault_append journeys c s) ≡ₚ flat journeys ++ [s].
Proof.
  unfold flat. induction journeys as [|[k v] rest IH]; csimpl.
  - done.
  - destruct (decide (k = c)) as [->|Hne]; csimpl.
    + rewrite <- !(assoc_L (++)). f_equiv. apply Permutation_app_comm.
    + rewrite IH. by rewrite (assoc_L (++)).
Qed.

Lemma flat_group_by_conversion_id data :
  flat (group_by_conversion_id data) ≡ₚ data.
Proof.
  unfold group_by_conversion_id.
  induction data as [|s data IH] using rev_ind; [done |].
  by rewrite foldl_snoc, flat_setdefault_append, IH.
Qed.

Lemma flat_join (blocks : list (list (string * list JourneyEntry))) :
  flat (mjoin blocks) = mjoin (flat <$> blocks).
Proof.
  unfold flat. induction blocks as [|b blocks IH]; [done |]. csimpl.
  by rewrite fmap_app, join_app, IH.
Qed.

(** X2. Chunking loses nothing, repeats nothing and keeps the journeys in
    their grouping order: the chunks laid end to end are the journeys of
    the grouped input laid end to end, which is a rearrangement of the
    input. *)
Theorem create_chunks_concat data :
  mjoin (create_chunks data) = flat (group_by_conversion_id data)
  ∧ mjoin (create_chunks data) ≡ₚ data.
Proof.
  destruct (create_chunks_blocks data) as (blocks & Hjoin & -> & _).
  rewrite <- flat_join, Hjoin. split; [done |].
  apply flat_group_by_conversion_id.
Qed.

(** X3. No chunk is empty, and there is no chunk at all exactly when the
    input is empty. *)
Theorem create_chunks_no_empty_chunk data :
  (∀ chunk, chunk ∈ create_chunks data → chunk ≠ [])
  ∧ (create_chunks data = [] ↔ data = []).
Proof.
  split; [intros chunk; apply create_chunks_nonempty |]. split.
  - intros Hnil.
    destruct (create_chunks_blocks data) as (blocks & Hjoin & Hchunks & _).
    pose proof (flat_group_by_conversion_id data) as Hperm.
    rewrite <- Hjoin, flat_join, <- Hchunks, Hnil in Hperm.
    simpl in Hperm. by apply Permutation_nil_l in Hperm.
  - by intros ->.
Qed.

End GroupingAndChunking.
(** ** Reconciliation and storage *)

Section Reconciliation.
Import Run Loader.
Context `{Builtins}.

Implicit Types (w : World) (e : entry) (key : string * string).
Implicit Types (records : list entry) (candidates : list json).

Local Ltac run :=
  unfold bind, ret, raise, lift, logger, modify, try_except; simpl.

Lemma bind_return {A B} (m : M World A) (k : A → M World B) w a w' :
  m w = (Return a, w') → bind m k w = k a w'.
Proof. intros Hm. unfold bind. by rewrite Hm. Qed.

Lemma bind_raise {A B} (m : M World A) (k : A → M World B) w x w' :
  m w = (Raise x, w') → bind m k w = (Raise x, w').
Proof. intros Hm. unfold bind. by rewrite Hm. Qed.

Lemma bind_logger {B} lvl msg (k : unit → M World B) w :
  bind (logger lvl msg) k w
  = k tt {| db := db w; log := log w ++ [(lvl, msg)] |}.
Proof. reflexivity. Qed.

(** *** Computations that only log *)

Lemma log_only_ret {A} (a : A) : log_only (ret a).
Proof. exists (Return a), []. intros [d l]. run. by rewrite app_nil_r. Qed.

Lemma log_only_raise {A} (x : exn) : log_only (@raise World A x).
Proof. exists (Raise x), []. intros [d l]. run. by rewrite app_nil_r. Qed.

Lemma log_only_lift {A} (o : outcome A) : log_only (lift o).
Proof. exists o, []. intros [d l]. run. by rewrite app_nil_r. Qed.

Lemma log_only_logger lvl msg : log_only (logger lvl msg).
Proof. by exists (Return tt), [(lvl, msg)]. Qed.

Lemma log_only_bind {A B} (m : M World A) (k : A → M World B) :
  log_only m → (∀ a, log_only (k a)) → log_only (bind m k).
Proof.
  intros (o & lines & Hm) Hk. destruct o as [a|x].
  - destruct (Hk a) as (o' & lines' & Hka).
    exists o', (lines ++ lines'). intros w. unfold bind.
    rewrite Hm, Hka. simpl. by rewrite (assoc_L (++)).
  - exists (Raise x), lines. intros w. unfold bind. by rewrite Hm.
Qed.

Lemma log_only_foldM {A B} (body : B → A → M World B) (l : list A) :
  (∀ b x, log_only (body b x)) → ∀ b, log_only (foldM body b l).
Proof.
  intros Hbody. induction l as [|x l IH]; intros b; simpl.
  - apply log_only_ret.
  - apply log_only_bind; auto.
Qed.

Lemma log_only_outcome {A} (m : M World A) w w' :
  log_only m → (m w).1 = (m w').1.
Proof. intros (o & lines & Hm). by rewrite !Hm. Qed.

Lemma log_only_db {A} (m : M World A) w :
  log_only m → db (m w).2 = db w.
Proof. intros (o & lines & Hm). by rewrite Hm. Qed.

Lemma log_only_log {A} (m : M World A) w line :
  log_only m → line ∈ log w → line ∈ log (m w).2.
Proof.
  intros (o & lines & Hm) Hin. rewrite Hm. simpl.
  apply elem_of_app. by left.
Qed.

Create HintDb log_only.

Local Hint Resolve log_only_ret log_only_raise log_only_lift log_only_logger
  : log_only.

Lemma log_only_process_response acc item : log_only (process_response acc item).
Proof.
  destruct item as [idx response]. unfold process_response, extend_with.
  destruct (classify response) as [value [errs|]| | data | results | code err | | items |];
    repeat first
      [ apply log_only_bind; [| intros ?]
      | apply log_only_foldM; intros ? ?
      | match goal with
        | |- log_only (match ?x with _ => _ end) => destruct x
        | |- log_only (if ?x then _ else _) => destruct x
        end
      | solve [auto with log_only] ].
Qed.

Lemma log_only_report_errors acc : log_only (report_errors acc).
Proof.
  unfold report_errors.
  destruct (error_counts acc); [auto with log_only |].
  apply log_only_bind; [auto with log_only | intros _].
  apply log_only_bind; [| intros _].
  - apply log_only_foldM. auto with log_only.
  - destruct (structure_samples acc); auto with log_only.
Qed.

Lemma log_only_flatten_responses api_responses :
  log_only (flatten_responses api_responses).
Proof.
  unfold flatten_responses.
  apply log_only_bind; [| intros acc].
  - apply log_only_foldM. apply log_only_process_response.
  - apply log_only_bind; [apply log_only_report_errors | intros _].
    destruct (valid_responses acc); auto with log_only.
Qed.

Lemma log_only_reconcile_step acc result : log_only (reconcile_step acc result).
Proof.
  unfold reconcile_step. destruct (validate result); [| | auto with log_only].
  - destruct (bool_decide _); [| auto with log_only].
    apply log_only_bind; [| intros _]; auto with log_only.
  - apply log_only_bind; [| intros _]; auto with log_only.
Qed.

Lemma log_only_reconcile candidates : log_only (reconcile candidates).
Proof.
  unfold reconcile. apply log_only_bind; [| intros ?; auto with log_only].
  apply log_only_foldM. apply log_only_reconcile_step.
Qed.

(** *** First occurrence wins, on the list of records *)

Lemma with_key_app key records1 records2 :
  with_key key (records1 ++ records2)
  = with_key key records1 ++ with_key key records2.
Proof. apply filter_app. Qed.

Lemma with_key_nil_iff key records :
  with_key key records = [] ↔ key ∉ entry_key <$> records.
Proof.
  unfold with_key. split.
  - intros Hnil (r & -> & Hr)%list_elem_of_fmap.
    assert (r ∈ filter (λ r' : entry, entry_key r' = entry_key r) records) as Hin
      by (by apply list_elem_of_filter).
    rewrite Hnil in Hin. by apply not_elem_of_nil in Hin.
  - intros Hnot. destruct (filter _ records) as [|r l] eqn:Heq; [done |].
    assert (r ∈ filter (λ r', entry_key r' = key) records) as Hin
      by (rewrite Heq; left).
    apply list_elem_of_filter in Hin as [<- Hin].
    destruct Hnot. by apply list_elem_of_fmap_2.
Qed.

Lemma add_if_new_seen records e :
  entry_key e ∈ entry_key <$> records → add_if_new records e = records.
Proof. intros. unfold add_if_new. by rewrite decide_True. Qed.

Lemma add_if_new_fresh records e :
  entry_key e ∉ entry_key <$> records → add_if_new records e = records ++ [e].
Proof. intros. unfold add_if_new. by rewrite decide_False. Qed.

Lemma with_key_foldl_add_if_new key es : ∀ records,
  with_key key (foldl add_if_new records es)
  = if decide (key ∈ entry_key <$> records) then with_key key records
    else option_list (head (with_key key es)).
Proof.
  induction es as [|e es IH]; intros records; simpl.
  - case_decide; [done |]. by apply with_key_nil_iff.
  - rewrite IH.
    destruct (decide (entry_key e ∈ entry_key <$> records)) as [Hin|Hnew].
    + rewrite add_if_new_seen by done.
      destruct (decide (key ∈ entry_key <$> records)) as [_|Hkey]; [done |].
      unfold with_key at 2. rewrite filter_cons_False; [done |].
      by intros <-.
    + rewrite add_if_new_fresh by done.
      rewrite fmap_app, with_key_app. simpl.
      destruct (decide (key ∈ entry_key <$> records)) as [Hkey|Hkey].
      * rewrite decide_True by (apply elem_of_app; by left).
        unfold with_key at 2. rewrite filter_cons_False, filter_nil.
        -- by rewrite app_nil_r.
        -- by intros <-.
      * apply with_key_nil_iff in Hkey as Hnil. rewrite Hnil. simpl.
        destruct (decide (entry_key e = key)) as [<-|Hne].
        -- rewrite decide_True by (apply elem_of_app; right; left).
           unfold with_key. by rewrite !filter_cons_True.
        -- rewrite decide_False.
           ++ unfold with_key. by rewrite filter_cons_False.
           ++ rewrite elem_of_app, list_elem_of_singleton.
              intros [?|?]; done.
Qed.

(** *** The loop computes the first-wins list of the kept entries *)

Lemma kept_cons c candidates :
  kept (c :: candidates)
  = match validate c with Keep e => e :: kept candidates
                        | _ => kept candidates end.
Proof. unfold kept. simpl. by destruct (validate c). Qed.

Lemma kept_app candidates1 candidates2 :
  kept (candidates1 ++ candidates2) = kept candidates1 ++ kept candidates2.
Proof. apply omap_app. Qed.

Lemma reconcile_loop candidates : ∀ acc w,
  (∀ c x, c ∈ candidates → validate c ≠ Fail x) →
  (∀ key, key ∈ seen acc ↔ key ∈ entry_key <$> attribution_data acc) →
  ∃ acc' w',
    foldM reconcile_step acc candidates w = (Return acc', w')
    ∧ attribution_data acc'
      = foldl add_if_new (attribution_data acc) (kept candidates).
Proof.
  induction candidates as [|c candidates IH]; intros acc w Hok Hseen.
  - by exists acc, w.
  - assert (∀ c' x, c' ∈ candidates → validate c' ≠ Fail x) as Hok'
      by (intros ? ? ?; apply Hok; by right).
    rewrite kept_cons. cbn [foldM]. unfold reconcile_step at 1.
    destruct (validate c) as [e|warning|x] eqn:Hv.
    + destruct (bool_decide (entry_key e ∈ seen acc)) eqn:Hdup.
      * apply bool_decide_eq_true in Hdup.
        run. edestruct (IH acc) as (acc' & w' & Hloop & Hdata); [done.. |].
        exists acc', w'. split; [exact Hloop |]. rewrite Hdata. simpl.
        rewrite add_if_new_seen; [done |]. by apply Hseen.
      * apply bool_decide_eq_false in Hdup.
        run. edestruct (IH {| attribution_data := attribution_data acc ++ [e];
                             seen := {[entry_key e]} ∪ seen acc |})
          as (acc' & w' & Hloop & Hdata); [done | |].
        { intros key. simpl. rewrite fmap_app, elem_of_app.
          rewrite elem_of_union, elem_of_singleton, Hseen. simpl.
          rewrite list_elem_of_singleton. tauto. }
        exists acc', w'. split; [exact Hloop |]. rewrite Hdata. simpl.
        rewrite add_if_new_fresh; [done |]. by rewrite <- Hseen.
    + run. edestruct (IH acc) as (acc' & w' & Hloop & Hdata); [done.. |].
      exists acc', w'. split; [exact Hloop | done].
    + by destruct (Hok c x); [left |].
Qed.

Lemma reconcile_returns candidates w :
  (∀ c x, c ∈ candidates → validate c ≠ Fail x) →
  ∃ w', reconcile candidates w
        = (Return (foldl add_if_new [] (kept candidates)), w').
Proof.
  intros Hok. unfold reconcile.
  edestruct (reconcile_loop candidates
               {| attribution_data := []; seen := ∅ |} w)
    as (acc' & w' & Hloop & Hdata); [done | |].
  { intros key. simpl. split; [by intros ?%not_elem_of_empty |].
    by intros ?%not_elem_of_nil. }
  exists w'. unfold bind. rewrite Hloop. unfold ret. by rewrite Hdata.
Qed.

(** *** The flattened stream is the concatenation of the responses *)

Lemma count_partial_failures_valid idx items : ∀ acc w acc' w',
  foldM (fun acc err =>
           bind (logger WARNING (Partial_failure_in_response idx err))
                (fun _ => ret (count (KStr "partial_failure") acc)))
        acc items w = (Return acc', w') →
  valid_responses acc' = valid_responses acc.
Proof.
  induction items as [|err items IH]; intros acc w acc' w'; cbn [foldM].
  - by intros [= ->].
  - unfold bind at 1. rewrite bind_logger. unfold ret at 1.
    intros Hloop. by apply IH in Hloop.
Qed.

Lemma process_response_valid acc idx (response : json) w acc' w' :
  process_response acc (idx, response) w = (Return acc', w') →
  valid_responses acc' = valid_responses acc ++ candidates_of response.
Proof.
  unfold process_response, candidates_of, extend_with.
  destruct (classify response)
    as [value [errs|]| | data | results | code err | | items |].
  - destruct (truthy errs); [| by intros [= <-]].
    destruct (py_iter errs); [| done].
    by intros ->%count_partial_failures_valid.
  - by intros [= <-].
  - rewrite bind_logger. intros [= <-]. simpl. by rewrite app_nil_r.
  - destruct (py_iter data); [by intros [= <-] | done].
  - destruct (py_iter results); [by intros [= <-] | done].
  - unfold bind at 1, lift. destruct (hash_key code); [| done].
    rewrite bind_logger. intros [= <-]. simpl. by rewrite app_nil_r.
  - intros [= <-]. simpl. by rewrite app_nil_r.
  - by intros [= <-].
  - intros [= <-]. simpl. by rewrite app_nil_r.
Qed.

Lemma flatten_loop_valid items : ∀ acc w acc' w',
  foldM process_response acc items w = (Return acc', w') →
  valid_responses acc'
  = valid_responses acc ++ mjoin (candidates_of <$> items.*2).
Proof.
  induction items as [|[idx response] items IH]; intros acc w acc' w';
    cbn [foldM].
  - intros [= ->]. simpl. by rewrite app_nil_r.
  - unfold bind at 1.
    destruct (process_response acc (idx, response) w) as [[acc1|x] w1] eqn:Hstep;
      [| done].
    intros Hloop%IH. apply process_response_valid in Hstep.
    rewrite Hloop, Hstep. csimpl. by rewrite (assoc_L (++)).
Qed.

Lemma enumerate_snd {A} (l : list A) : ∀ start, (enumerate start l).*2 = l.
Proof.
  induction l as [|x l IH]; intros start; csimpl; [done | by rewrite IH].
Qed.

Lemma flatten_responses_stream api_responses w candidates w' :
  flatten_responses api_responses w = (Return candidates, w') →
  candidates = mjoin (candidates_of <$> api_responses).
Proof.
  unfold flatten_responses, bind at 1.
  destruct (foldM _ _ _ w) as [[acc|x] w1] eqn:Hloop; [| done].
  apply flatten_loop_valid in Hloop. rewrite enumerate_snd in Hloop.
  simpl in Hloop. unfold bind.
  destruct (report_errors acc w1) as [[[]|x] w2]; [| done].
  destruct (valid_responses acc); [done |]. by intros [= <- _].
Qed.

(** C4. In the stream of candidates flattened out of all the responses,
    which is the concatenation of what each response contributes, the
    first candidate that passes the checks under a given
    [(conv_id, session_id)] key is the one record kept under that key: every
    later candidate with the key is dropped.  This is settled by the
    reconciliation loop, which leaves the store untouched. *)
Theorem reconcile_first_occurrence_wins
    api_responses w w1 candidates before c after e :
  flatten_responses api_responses w = (Return candidates, w1) →
  candidates = before ++ c :: after →
  validate c = Keep e →
  (∀ c' e', c' ∈ before → validate c' = Keep e' →
            entry_key e' ≠ entry_key e) →
  (∀ c' x, c' ∈ candidates → validate c' ≠ Fail x) →
  candidates = mjoin (candidates_of <$> api_responses)
  ∧ ∃ records w2,
      reconcile candidates w1 = (Return records, w2)
      ∧ with_key (entry_key e) records = [e]
      ∧ db w2 = db w.
Proof.
  intros Hflat Hsplit Hc Hfirst Hok.
  split; [by eapply flatten_responses_stream |]. subst candidates.
  destruct (reconcile_returns _ w1 Hok) as (w2 & Hrec).
  exists (foldl add_if_new [] (kept (before ++ c :: after))), w2.
  split; [done |]. split.
  - rewrite with_key_foldl_add_if_new. simpl.
    rewrite kept_app, kept_cons, Hc, with_key_app.
    replace (with_key (entry_key e) (kept before)) with (@nil entry).
    + unfold with_key. by rewrite filter_cons_True.
    + symmetry. apply with_key_nil_iff.
      intros (e' & Hkey & He')%list_elem_of_fmap.
      apply list_elem_of_omap in He' as (c' & Hc' & Hv).
      destruct (validate c') as [e''| |] eqn:Hv'; simplify_eq.
      apply (Hfirst c' e' Hc' Hv'). unfold entry_key. congruence.
  - pose proof (log_only_db _ w (log_only_flatten_responses api_responses))
      as Hdb1.
    pose proof (log_only_db _ w1 (log_only_reconcile (before ++ c :: after)))
      as Hdb2.
    rewrite Hflat in Hdb1. rewrite Hrec in Hdb2. simpl in *. congruence.
Qed.

(** *** The attribution table *)

Lemma sql_eq_true a b : sql_eq a b = true ↔ ∃ x, a = Some x ∧ b = Some x.
Proof.
  destruct a as [x|], b as [y|]; simpl;
    try (split; [done | by intros (? & ? & ?)]).
  rewrite String.eqb_eq. split.
  - intros ->. by exists y.
  - by intros (? & [= ->] & [= ->]).
Qed.

Lemma conflicts_true new old :
  conflicts new old = true ↔
  ∃ c s, acj_conv_id new = Some c ∧ acj_session_id new = Some s
         ∧ acj_conv_id old = Some c ∧ acj_session_id old = Some s.
Proof.
  unfold conflicts. rewrite andb_true_iff, !sql_eq_true. split.
  - intros [(c & ? & ?) (s & ? & ?)]. by exists c, s.
  - intros (c & s & ? & ? & ? & ?). split; [by exists c | by exists s].
Qed.

Lemma filter_none {A} (P : A → Prop) `{!∀ x, Decision (P x)} (l : list A) :
  (∀ x, x ∈ l → ¬ P x) → filter P l = [].
Proof.
  induction l as [|x l IH]; intros Hnone; [done |].
  rewrite filter_cons_False by (apply Hnone; left).
  apply IH. intros y Hy. apply Hnone. by right.
Qed.

Lemma stored_insert_same table c s v :
  stored (insert_or_replace table
            {| acj_conv_id := Some c; acj_session_id := Some s;
               acj_ihc := v |}) (c, s) = [v].
Proof.
  unfold stored, insert_or_replace. rewrite filter_app. simpl.
  rewrite filter_none.
  - by rewrite filter_cons_True.
  - intros old [Hnc _]%list_elem_of_filter [Hc Hs].
    apply not_true_iff_false in Hnc. apply Hnc, conflicts_true.
    by exists c, s.
Qed.

Lemma stored_insert_other table new c s v :
  conflicts new {| acj_conv_id := Some c; acj_session_id := Some s;
                   acj_ihc := v |} = false →
  stored (insert_or_replace table new) (c, s) = stored table (c, s).
Proof.
  intros Hnc. apply not_true_iff_false in Hnc.
  assert (¬ (acj_conv_id new = Some c ∧ acj_session_id new = Some s)) as Hnew.
  { intros [Hc Hs]. apply Hnc, conflicts_true. by exists c, s. }
  unfold stored, insert_or_replace. rewrite filter_app. simpl.
  rewrite (filter_cons_False _ new) by done.
  rewrite filter_nil, app_nil_r. f_equal.
  apply list_filter_filter_l. intros old [Hc Hs].
  apply not_true_iff_false. intros (c' & s' & ? & ? & ? & ?)%conflicts_true.
  apply Hnew. split; congruence.
Qed.


(** *** Raising and returning *)

(** C6 (failing input). A candidate that has the three fields but whose
    weight is [null] is not skipped: [float(None)] raises [TypeError], the
    exception leaves the loop and [load_attribution_results] re-raises it.
    The valid candidate that follows is never stored. *)
Theorem load_raises_on_null_weight w :
  load_attribution_results Examples.null_weight w
  = (Raise (TypeError "float() argument must be a string or a real number"),
     {| db := db w;
        log := (log w ++ [(INFO, Loaded_API_responses 1)]) ++
               [(ERROR, Error_loading_attribution_results
                   (TypeError
                      "float() argument must be a string or a real number"))]
     |}).
Proof. reflexivity. Qed.

(** The same happens for a candidate that is not a dict at all. *)
Lemma load_raises_on_bare_number w :
  (load_attribution_results Examples.bare_number w).1
  = Raise (TypeError "argument is not iterable").
Proof. reflexivity. Qed.

Lemma enumerate_elem {A} (l : list A) : ∀ start i x,
  (i, x) ∈ enumerate start l → x ∈ l.
Proof.
  induction l as [|y l IH]; intros start i x Hin; simpl in Hin.
  - by apply not_elem_of_nil in Hin.
  - apply elem_of_cons in Hin as [[= _ ->]|Hin]; [left | right; eauto].
Qed.

Lemma log_occurrences_returns (counts : list (dict_key * nat)) : ∀ w,
  ∃ w', foldM (fun _ kv => logger WARNING (Code_occurrences kv.1 kv.2))
              tt counts w = (Return tt, w').
Proof.
  induction counts as [|kv counts IH]; intros w; cbn [foldM].
  - by exists w.
  - rewrite bind_logger. apply IH.
Qed.

Lemma report_errors_returns acc w :
  ∃ w', report_errors acc w = (Return tt, w').
Proof.
  unfold report_errors. destruct (error_counts acc) as [|kv counts].
  - by exists w.
  - rewrite bind_logger.
    edestruct (log_occurrences_returns (kv :: counts)) as (w' & Hloop).
    erewrite bind_return by exact Hloop.
    destruct (structure_samples acc); by eexists.
Qed.

Lemma process_response_nothing acc idx (r : json) w :
  error_or_invalid r →
  (∃ acc' w', process_response acc (idx, r) w = (Return acc', w')
              ∧ valid_responses acc' = valid_responses acc)
  ∨ (∃ w', process_response acc (idx, r) w
           = (Raise (TypeError "unhashable type"), w')).
Proof.
  unfold process_response. intros [(code & err & ->)| ->].
  - destruct code; simpl; first [left; by eexists _, _ | right; by eexists].
  - left. by eexists _, _.
Qed.

Lemma flatten_loop_nothing items : ∀ acc w,
  (∀ i (r : json), (i, r) ∈ items → error_or_invalid r) →
  valid_responses acc = [] →
  (∃ acc' w', foldM process_response acc items w = (Return acc', w')
              ∧ valid_responses acc' = [])
  ∨ (∃ w', foldM process_response acc items w
           = (Raise (TypeError "unhashable type"), w')).
Proof.
  induction items as [|[idx r] items IH]; intros acc w Hall Hnil.
  - left. by exists acc, w.
  - cbn [foldM].
    destruct (process_response_nothing acc idx r w)
      as [(acc' & w' & Hstep & Hsame)|(w' & Hstep)].
    + eapply Hall. left.
    + rewrite (bind_return _ _ _ _ _ Hstep). apply IH.
      * intros ? ? ?. eapply Hall. by right.
      * congruence.
    + right. exists w'. by rewrite (bind_raise _ _ _ _ _ Hstep).
Qed.

Lemma flatten_responses_nothing api_responses w :
  (∀ r : json, r ∈ api_responses → error_or_invalid r) →
  ∃ x w', flatten_responses api_responses w = (Raise x, w')
          ∧ (x = no_valid_attribution_data
             ∨ x = TypeError "unhashable type").
Proof.
  intros Hall. unfold flatten_responses.
  set (acc0 := {| valid_responses := []; error_counts := [];
                  structure_samples := [] |}).
  destruct (flatten_loop_nothing (enumerate 0 api_responses) acc0 w)
    as [(acc' & w' & Hloop & Hnil)|(w' & Hloop)].
  - intros i r Hin. eapply Hall, enumerate_elem. done.
  - done.
  - rewrite (bind_return _ _ _ _ _ Hloop).
    destruct (report_errors_returns acc' w') as (w'' & Hrep).
    rewrite (bind_return _ _ _ _ _ Hrep), Hnil.
    eexists _, _. split; [done | by left].
  - rewrite (bind_raise _ _ _ _ _ Hloop).
    eexists _, _. split; [done | by right].
Qed.

(** C8. When every response is an error object or an unrecognised object,
    nothing is flattened and [load_attribution_results] raises: it does not
    return, and the store is left as it was. *)
Theorem load_fatal_when_nothing_flattens api_responses w :
  (∀ r : json, r ∈ api_responses → error_or_invalid r) →
  ∃ x w', load_attribution_results api_responses w = (Raise x, w')
          ∧ (x = no_valid_attribution_data
             ∨ x = TypeError "unhashable type")
          ∧ db w' = db w.
Proof.
  intros Hall. unfold load_attribution_results, load_body.
  set (w0 := {| db := db w;
                log := log w ++ [(INFO, Loaded_API_responses
                                          (length api_responses))] |}).
  destruct (flatten_responses_nothing api_responses w0 Hall)
    as (x & w1 & Hflat & Hx).
  pose proof (log_only_db _ w0 (log_only_flatten_responses api_responses))
    as Hdb.
  rewrite Hflat in Hdb. simpl in Hdb.
  exists x. eexists. unfold try_except, bind at 1, logger at 1, modify at 1.
  fold w0. unfold bind at 1. rewrite Hflat.
  split; [by run |]. split; [done |]. by simpl.
Qed.

Lemma validate_incomplete c :
  incomplete c → validate c = Skip Skipping_incomplete_entry.
Proof. unfold incomplete, validate. by intros ->. Qed.

Lemma validate_has_empty_id c :
  has_empty_id c →
  validate c = Skip Skipping_entry_with_empty_conversion_or_session_ID.
Proof.
  intros (Hall & e & Hco & Hempty). unfold validate. rewrite Hall, Hco.
  destruct Hempty as [->| ->]; simpl; [done |].
  by rewrite orb_true_r.
Qed.

(** C10. When the responses flatten to candidates (there is then at least
    one) and every candidate lacks a field or coerces to an entry with an
    empty id, [load_attribution_results] returns normally, writes the error
    line "No valid attribution data to load" and leaves the store, and so
    the attribution table, as it was. *)
Theorem load_returns_when_all_filtered api_responses w candidates :
  (flatten_responses api_responses w).1 = Return candidates →
  (∀ c, c ∈ candidates → incomplete c ∨ has_empty_id c) →
  candidates ≠ []
  ∧ ∃ w', load_attribution_results api_responses w = (Return tt, w')
          ∧ db w' = db w
          ∧ (ERROR, No_valid_attribution_data_to_load) ∈ log w'.
Proof.
  intros Hflat Hall. split.
  - intros ->. revert Hflat. unfold flatten_responses, bind.
    destruct (foldM _ _ _ w) as [[acc|x] w1]; [| done].
    destruct (report_errors acc w1) as [[[]|x] w2]; [| done].
    by destruct (valid_responses acc).
  - assert (∀ c, c ∈ candidates → ∃ warning, validate c = Skip warning)
      as Hskip.
    { intros c [?|?]%Hall; eexists;
        [by apply validate_incomplete | by apply validate_has_empty_id]. }
    assert (kept candidates = []) as Hkept.
    { unfold kept. clear Hflat Hall.
      induction candidates as [|c l IH]; [done |]. simpl.
      destruct (Hskip c) as [warning ->]; [left |]. simpl.
      apply IH. intros c' Hc'. apply Hskip. by right. }
    unfold load_attribution_results, load_body.
    set (w0 := {| db := db w;
                  log := log w ++ [(INFO, Loaded_API_responses
                                            (length api_responses))] |}).
    pose proof (log_only_flatten_responses api_responses) as Hlo.
    rewrite (log_only_outcome _ w w0 Hlo) in Hflat.
    pose proof (log_only_db _ w0 Hlo) as Hdb1.
    destruct (flatten_responses api_responses w0) as [o w1] eqn:Hfl.
    simpl in Hflat, Hdb1. subst o.
    destruct (reconcile_returns candidates w1) as (w2 & Hrec).
    { intros c x Hc Hfail. destruct (Hskip c Hc) as [? Hs]. congruence. }
    pose proof (log_only_db _ w1 (log_only_reconcile candidates)) as Hdb2.
    rewrite Hrec in Hdb2. simpl in Hdb2. rewrite Hkept in Hrec. simpl in Hrec.
    eexists. unfold try_except, bind at 1, logger at 1, modify at 1.
    fold w0. unfold bind at 1. rewrite Hfl. unfold bind at 1. rewrite Hrec.
    simpl. split; [by run |]. run. split; [congruence |].
    apply elem_of_app. right. left.
Qed.

End Reconciliation.

(** *** The statements at concrete responses *)

Section ConcreteResponses.
Import Examples.

Lemma reconcile_first_occurrence_wins_witness :
  Examples.repeated_key_stream
  = mjoin (Loader.candidates_of <$> Examples.repeated_key)
  ∧ ∃ records w2,
      Loader.reconcile Examples.repeated_key_stream
        (Loader.flatten_responses Examples.repeated_key Examples.fresh).2
      = (Return records, w2)
      ∧ Loader.with_key ("c1", "s1") records
        = [ {| Loader.conv_id := "c1"; Loader.session_id := "s1";
               Loader.ihc := Finite (6 # 10) |} ]
      ∧ Loader.db w2 = Loader.db Examples.fresh.
Proof.
  apply (reconcile_first_occurrence_wins
           Examples.repeated_key Examples.fresh _
           Examples.repeated_key_stream
           [] (Examples.candidate "c1" "s1" (6 # 10))
           [Examples.candidate "c1" "s1" (9 # 10);
            Examples.candidate "c1" "s2" (4 # 10)]
           {| Loader.conv_id := "c1"; Loader.session_id := "s1";
              Loader.ihc := Finite (6 # 10) |}).
  - reflexivity.
  - reflexivity.
  - reflexivity.
  - intros c' e' Hin. inversion Hin.
  - intros c' x Hin.
    repeat (apply elem_of_cons in Hin as [->|Hin]); [| | | inversion Hin];
      discriminate.
Defined.


Lemma load_fatal_when_nothing_flattens_witness :
  ∃ x w',
    Loader.load_attribution_results Examples.only_errors Examples.fresh
    = (Raise x, w')
    ∧ (x = Loader.no_valid_attribution_data
       ∨ x = TypeError "unhashable type")
    ∧ Loader.db w' = Loader.db Examples.fresh.
Proof.
  apply (load_fatal_when_nothing_flattens Examples.only_errors Examples.fresh).
  intros r Hin. apply elem_of_cons in Hin as [->|Hin].
  - left. eexists _, _. reflexivity.
  - apply list_elem_of_singleton in Hin as ->. right. reflexivity.
Defined.

Lemma load_returns_when_all_filtered_witness :
  [ JObj [("conversion_id", JStr "c1"); ("session_id", JStr "s1")];
    Examples.candidate "" "s2" 1 ] ≠ []
  ∧ ∃ w',
      Loader.load_attribution_results Examples.all_filtered Examples.fresh
      = (Return tt, w')
      ∧ Loader.db w' = Loader.db Examples.fresh
      ∧ (Loader.ERROR, Loader.No_valid_attribution_data_to_load)
        ∈ Loader.log w'.
Proof.
  apply (load_returns_when_all_filtered Examples.all_filtered Examples.fresh).
  - reflexivity.
  - intros c Hin. apply elem_of_cons in Hin as [->|Hin].
    + left. reflexivity.
    + apply list_elem_of_singleton in Hin as ->. right.
      split; [reflexivity |]. eexists. split; [reflexivity |].
      left. reflexivity.
Defined.

(** A success envelope and a legacy [data] response are flattened into
    two records, which are stored as they come. *)
Example load_two_shapes :
  let r := Loader.load_attribution_results two_shapes fresh in
  r.1 = Return tt
  ∧ attribution_customer_journey (Loader.db r.2)
    = [row "c1" "s1" (6 # 10); row "c1" "s2" (4 # 10)].
Proof. vm_compute. done. Qed.

(** Within one run the first weight of a key is kept; a later run that
    submits the key again replaces the stored weight. *)
Example load_twice :
  let first := Loader.load_attribution_results repeated_key fresh in
  let second := Loader.load_attribution_results changed_weight first.2 in
  Loader.stored (attribution_customer_journey (Loader.db first.2))
    ("c1", "s1") = [Some (6 # 10)]
  ∧ Loader.stored (attribution_customer_journey (Loader.db second.2))
      ("c1", "s1") = [Some (9 # 10)].
Proof. vm_compute. done. Qed.

End ConcreteResponses.

(** ** Loading, storing and verifying *)

Section LoadAndVerify.
Import Run Loader.
Context `{Builtins}.

Implicit Types (w : World) (e : entry) (key : string * string).
Implicit Types (records : list entry) (candidates : list json).

Lemma validate_Keep_ids (c : json) e :
  validate c = Keep e → conv_id e ≠ "" ∧ session_id e ≠ "".
Proof.
  unfold validate. destruct (all_in _ c) as [[|]|]; try done.
  destruct (coerce c) as [e'|]; [| done].
  destruct (_ || _) eqn:Hids; [done |]. intros [= ->].
  apply orb_false_iff in Hids as [Hc Hs].
  by apply String.eqb_neq in Hc, Hs.
Qed.

Lemma kept_elem candidates e :
  e ∈ kept candidates ↔ ∃ c : json, c ∈ candidates ∧ validate c = Keep e.
Proof.
  unfold kept. rewrite list_elem_of_omap. split.
  - intros (c & Hc & Hv). exists c. split; [done |].
    destruct (validate c); congruence.
  - intros (c & Hc & Hv). exists c. by rewrite Hv.
Qed.

Lemma first_wins_elem es : ∀ records e,
  e ∈ foldl add_if_new records es → e ∈ records ∨ e ∈ es.
Proof.
  induction es as [|e' es IH]; intros records e; simpl; [by left |].
  intros [Hin|Hin]%IH; [| right; by right].
  unfold add_if_new in Hin. case_decide; [by left |].
  apply elem_of_app in Hin as [?|Hin]; [by left |].
  apply list_elem_of_singleton in Hin as ->. right. left.
Qed.

Lemma first_wins_NoDup es : ∀ records,
  NoDup (entry_key <$> records) →
  NoDup (entry_key <$> foldl add_if_new records es).
Proof.
  induction es as [|e es IH]; intros records Hnd; simpl; [done |].
  apply IH. unfold add_if_new. case_decide; [done |].
  rewrite fmap_app. apply NoDup_app. split_and!; [done | | apply NoDup_singleton].
  intros key Hkey Hk. apply list_elem_of_singleton in Hk as ->. done.
Qed.

Lemma reconcile_loop_returns candidates : ∀ acc w acc' w',
  foldM reconcile_step acc candidates w = (Return acc', w') →
  (∀ key, key ∈ seen acc ↔ key ∈ entry_key <$> attribution_data acc) →
  attribution_data acc'
  = foldl add_if_new (attribution_data acc) (kept candidates).
Proof.
  induction candidates as [|c candidates IH]; intros acc w acc' w' Hloop Hseen.
  - by injection Hloop as <- _.
  - rewrite kept_cons. cbn [foldM] in Hloop. unfold reconcile_step at 1 in Hloop.
    destruct (validate c) as [e|warning|x].
    + destruct (bool_decide (entry_key e ∈ seen acc)) eqn:Hdup.
      * apply bool_decide_eq_true in Hdup.
        apply IH in Hloop; [| done]. rewrite Hloop. simpl.
        rewrite add_if_new_seen; [done |]. by apply Hseen.
      * apply bool_decide_eq_false in Hdup.
        apply IH in Hloop.
        -- rewrite Hloop. simpl.
           rewrite add_if_new_fresh; [done |]. by rewrite <- Hseen.
        -- intros key. simpl. rewrite fmap_app, elem_of_app.
           rewrite elem_of_union, elem_of_singleton, Hseen. simpl.
           rewrite list_elem_of_singleton. tauto.
    + by apply IH in Hloop.
    + done.
Qed.

Lemma reconcile_returns_first_wins candidates w records w' :
  reconcile candidates w = (Return records, w') →
  records = foldl add_if_new [] (kept candidates).
Proof.
  unfold reconcile, bind.
  destruct (foldM _ _ _ w) as [[acc|x] w1] eqn:Hloop; [| done].
  intros [= <- _]. apply reconcile_loop_returns in Hloop; [done |].
  intros key. simpl. split; [by intros ?%not_elem_of_empty |].
  by intros ?%not_elem_of_nil.
Qed.

(** X4. The records that reconciliation hands over have pairwise distinct
    [(conv_id, session_id)] keys and non-empty ids, and each of them is the
    entry of a candidate that passed the checks. *)
Theorem reconcile_records_wellformed candidates w records w' :
  reconcile candidates w = (Return records, w') →
  NoDup (entry_key <$> records)
  ∧ ∀ e, e ∈ records →
      conv_id e ≠ "" ∧ session_id e ≠ ""
      ∧ ∃ c : json, c ∈ candidates ∧ validate c = Keep e.
Proof.
  intros ->%reconcile_returns_first_wins. split.
  - apply first_wins_NoDup. constructor.
  - intros e [Hin|Hin]%first_wins_elem; [by apply not_elem_of_nil in Hin |].
    apply kept_elem in Hin as (c & Hc & Hv).
    destruct (validate_Keep_ids c e Hv). split_and!; [done.. |]. by exists c.
Qed.

(** *** What a run does to the store *)

(** Either a run leaves the store as it was, and it returns normally only
    when no record was reconciled; or it returns normally after upserting
    the reconciled records, of which there is one and whose total has not
    tested as [<= 0], and leaves the other tables as they were. *)
Lemma load_cases (api_responses : list json) w :
  (db (load_attribution_results api_responses w).2 = db w
   ∧ ((load_attribution_results api_responses w).1 = Return tt →
      foldl add_if_new [] (kept (mjoin (candidates_of <$> api_responses)))
      = []))
  ∨ ((load_attribution_results api_responses w).1 = Return tt
     ∧ ∃ records,
         records = foldl add_if_new []
                     (kept (mjoin (candidates_of <$> api_responses)))
         ∧ records ≠ []
         ∧ le_zero (total_ihc records) = false
         ∧ attribution_customer_journey
             (db (load_attribution_results api_responses w).2)
           = executemany (attribution_customer_journey (db w))
                         (row_of <$> records)
         ∧ session_sources (db (load_attribution_results api_responses w).2)
           = session_sources (db w)
         ∧ conversions (db (load_attribution_results api_responses w).2)
           = conversions (db w)
         ∧ session_costs (db (load_attribution_results api_responses w).2)
           = session_costs (db w)
         ∧ channel_reporting (db (load_attribution_results api_responses w).2)
           = channel_reporting (db w)).
Proof.
  unfold load_attribution_results, load_body, try_except.
  rewrite bind_logger.
  set (w0 := {| db := db w; log := _ |}).
  pose proof (log_only_db _ w0 (log_only_flatten_responses api_responses))
    as Hdb1.
  destruct (flatten_responses api_responses w0) as [[candidates|x] w1] eqn:Hfl.
  2: { rewrite (bind_raise _ _ _ _ _ Hfl). left. simpl in *.
       split; [congruence | done]. }
  rewrite (bind_return _ _ _ _ _ Hfl).
  apply flatten_responses_stream in Hfl as Hstream.
  pose proof (log_only_db _ w1 (log_only_reconcile candidates)) as Hdb2.
  destruct (reconcile candidates w1) as [[records|x] w2] eqn:Hrec.
  2: { rewrite (bind_raise _ _ _ _ _ Hrec). left. simpl in *.
       split; [congruence | done]. }
  rewrite (bind_return _ _ _ _ _ Hrec).
  apply reconcile_returns_first_wins in Hrec as Hrecords.
  simpl in Hdb1, Hdb2. subst candidates.
  destruct (length records =? 0) eqn:Hlen.
  { left. simpl. split; [congruence |]. intros _. rewrite <- Hrecords.
    by apply Nat.eqb_eq, nil_length_inv in Hlen. }
  destruct (le_zero (total_ihc records)) eqn:Htotal.
  { rewrite bind_logger. left. simpl. split; [congruence | done]. }
  right. split; [done |]. exists records. unfold store, modify. simpl.
  rewrite Hdb2, Hdb1. split_and!; try done.
  intros Hnil. by rewrite Hnil in Hlen.
Qed.

(** Upserting rows with pairwise distinct keys leaves each of them in the
    table, alone under its key. *)
Lemma executemany_stored (table : list attribution) records e :
  NoDup (entry_key <$> records) → e ∈ records →
  stored (executemany table (row_of <$> records)) (entry_key e)
  = [sql_real (ihc e)].
Proof.
  intros Hnd Hin. apply list_elem_of_split in Hin as (before & after & ->).
  rewrite fmap_app, fmap_cons in Hnd.
  apply NoDup_app in Hnd as (_ & _ & Hnd). apply NoDup_cons in Hnd as [Hfresh _].
  unfold executemany. rewrite fmap_app, fmap_cons, foldl_app. simpl.
  generalize (foldl insert_or_replace table (row_of <$> before)).
  change (entry_key e) with (conv_id e, session_id e).
  intros table'. induction after as [|e' after IH] using rev_ind.
  - apply (stored_insert_same _ (conv_id e) (session_id e) (sql_real (ihc e))).
  - rewrite fmap_app. change (row_of <$> [e']) with [row_of e'].
    rewrite foldl_snoc, (stored_insert_other _ _ _ _ (sql_real (ihc e))).
    + apply IH. intros Hk. apply Hfresh. rewrite fmap_app, elem_of_app. by left.
    + apply not_true_is_false. intros (c & s & Hc & Hs & Hc' & Hs')%conflicts_true.
      simpl in *. apply Hfresh. rewrite fmap_app, elem_of_app. right.
      apply list_elem_of_singleton. unfold entry_key. congruence.
Qed.

(** X5. When [load_attribution_results] returns normally after
    reconciling a record whose weight is finite and above zero,
    [verify_attribution_data] then answers [True]; when it returns with no
    record reconciled, it has left the store as it was. *)
Theorem load_then_verify (api_responses : list json) w w' :
  load_attribution_results api_responses w = (Return tt, w') →
  let records :=
    foldl add_if_new [] (kept (mjoin (candidates_of <$> api_responses))) in
  (records = [] → db w' = db w)
  ∧ ∀ e q, e ∈ records → ihc e = Finite q → (0 < q)%Q →
      (Verification.verify_attribution_data (db w')).1 = true.
Proof.
  intros Hload. cbv zeta.
  destruct (load_cases api_responses w)
    as [[Hsame Hnone]|(_ & records & Hrecords & Hne & _ & Htable & _)];
    rewrite Hload in *; simpl in *.
  { rewrite Hnone by done. split; [done |].
    by intros e q Hin%not_elem_of_nil. }
  rewrite <- Hrecords. split; [done |]. intros e q Hin Hq Hpos.
  assert (NoDup (entry_key <$> records)) as Hnd
    by (subst records; apply first_wins_NoDup; constructor).
  pose proof (executemany_stored (attribution_customer_journey (db w))
                records e Hnd Hin) as Hstored.
  rewrite <- Htable, Hq in Hstored. unfold stored in Hstored. simpl in Hstored.
  destruct (filter _ (attribution_customer_journey (db w'))) as [|r rest] eqn:Hf;
    [done |].
  injection Hstored as Hr _.
  assert (r ∈ attribution_customer_journey (db w')) as Hrin.
  { eapply (list_elem_of_filter _ _ r). rewrite Hf. left. }
  assert (r ∈ filter (fun r => Verification.positive r = true)
                     (attribution_customer_journey (db w'))) as Hr'.
  { apply list_elem_of_filter. split; [| done].
    unfold Verification.positive. rewrite Hr.
    apply negb_true_iff, not_true_is_false. intros Hle%Qle_bool_iff.
    by apply Qlt_not_le in Hpos. }
  unfold Verification.verify_attribution_data, Verification.valid_records.
  destruct (filter (fun r => Verification.positive r = true)
                   (attribution_customer_journey (db w'))) as [|r' l];
    [by apply not_elem_of_nil in Hr' | done].
Qed.

(** X6. A run never touches the session, conversion, cost and report
    tables, whatever the responses and however it ends. *)
Theorem load_leaves_other_tables (api_responses : list json) w :
  let w' := (load_attribution_results api_responses w).2 in
  session_sources (db w') = session_sources (db w)
  ∧ conversions (db w') = conversions (db w)
  ∧ session_costs (db w') = session_costs (db w)
  ∧ channel_reporting (db w') = channel_reporting (db w).
Proof.
  cbv zeta.
  destruct (load_cases api_responses w)
    as [[-> _]|(_ & records & _ & _ & _ & _ & ? & ? & ? & ?)]; by split_and!.
Qed.

(** X7. A run changes nothing under a key that no candidate of the
    responses passes the checks with: what the table held under that key
    before, it holds after. *)
Theorem load_keeps_unmentioned_keys (api_responses : list json) w c s :
  (∀ (candidate : json) e,
     candidate ∈ mjoin (candidates_of <$> api_responses) →
     validate candidate = Keep e → entry_key e ≠ (c, s)) →
  stored (attribution_customer_journey
            (db (load_attribution_results api_responses w).2)) (c, s)
  = stored (attribution_customer_journey (db w)) (c, s).
Proof.
  intros Hother.
  destruct (load_cases api_responses w)
    as [[-> _]|(_ & records & Hrecords & _ & _ & -> & _)]; [done |].
  assert (∀ e, e ∈ records → entry_key e ≠ (c, s)) as Hrec.
  { intros e He. subst records.
    apply first_wins_elem in He as [He|He]; [by apply not_elem_of_nil in He |].
    apply kept_elem in He as (candidate & Hc & Hv). by eapply Hother. }
  clear Hrecords. unfold executemany.
  induction records as [|e records IH] using rev_ind; [done |].
  rewrite fmap_app. change (row_of <$> [e]) with [row_of e].
  rewrite foldl_snoc, (stored_insert_other _ _ _ _ None).
  - apply IH. intros e' He'. apply Hrec, elem_of_app. by left.
  - apply not_true_is_false.
    intros (c' & s' & Hc & Hs & Hc' & Hs')%conflicts_true. simpl in *.
    apply (Hrec e); [apply elem_of_app; right; left |].
    unfold entry_key. congruence.
Qed.

(** A record that passed the checks leaves a record reconciled. *)
Lemma first_wins_nonempty candidates :
  kept candidates ≠ [] → foldl add_if_new [] (kept candidates) ≠ [].
Proof.
  destruct (kept candidates) as [|e es]; [done |]. intros _. simpl.
  rewrite add_if_new_fresh by (by intros ?%not_elem_of_nil). simpl.
  intros Hnil.
  assert (e ∈ foldl add_if_new [e] es) as Hin.
  { clear. generalize [e] (list_elem_of_here e []). intros l Hl.
    revert l Hl. induction es as [|e' es IH]; intros l Hl; simpl; [done |].
    apply IH. unfold add_if_new. case_decide; [done |].
    apply elem_of_app. by left. }
  rewrite Hnil in Hin. by apply not_elem_of_nil in Hin.
Qed.

(** X8. When no candidate raises, some candidate passes the checks and the
    total of the reconciled weights does not test as [<= 0], the run
    returns normally and the table then holds, under the key of each
    reconciled record, one value only: the weight of the record when it is
    finite, NULL when it is NaN. *)
Theorem load_stores_reconciled (api_responses : list json) w candidates :
  (flatten_responses api_responses w).1 = Return candidates →
  (∀ (c : json) x, c ∈ candidates → validate c ≠ Fail x) →
  kept candidates ≠ [] →
  le_zero (total_ihc (foldl add_if_new [] (kept candidates))) = false →
  (load_attribution_results api_responses w).1 = Return tt
  ∧ ∀ e, e ∈ foldl add_if_new [] (kept candidates) →
      let held :=
        stored (attribution_customer_journey
                  (db (load_attribution_results api_responses w).2))
               (entry_key e) in
      (∀ q, ihc e = Finite q → held = [Some q])
      ∧ (ihc e = NaN → held = [None]).
Proof.
  intros Hflat Hok Hkept Htotal.
  assert (candidates = mjoin (candidates_of <$> api_responses)) as Hstream.
  { destruct (flatten_responses api_responses w) as [o w1] eqn:Hfl.
    simpl in Hflat. subst o. by eapply flatten_responses_stream. }
  assert (NoDup (entry_key <$> foldl add_if_new [] (kept candidates))) as Hnd
    by (apply first_wins_NoDup; constructor).
  pose proof (first_wins_nonempty candidates Hkept) as Hne.
  unfold load_attribution_results, load_body, try_except.
  rewrite bind_logger. set (w0 := {| db := db w; log := _ |}).
  pose proof (log_only_flatten_responses api_responses) as Hlo.
  rewrite (log_only_outcome _ w w0 Hlo) in Hflat.
  pose proof (log_only_db _ w0 Hlo) as Hdb1.
  destruct (flatten_responses api_responses w0) as [o w1] eqn:Hfl.
  simpl in Hflat, Hdb1. subst o.
  destruct (reconcile_returns candidates w1 Hok) as (w2 & Hrec).
  pose proof (log_only_db _ w1 (log_only_reconcile candidates)) as Hdb2.
  rewrite Hrec in Hdb2. simpl in Hdb2.
  rewrite (bind_return _ _ _ _ _ Hfl), (bind_return _ _ _ _ _ Hrec).
  destruct (length _ =? 0) eqn:Hlen.
  { apply Nat.eqb_eq, nil_length_inv in Hlen. done. }
  rewrite Htotal. split; [done |]. intros e He. cbv zeta. simpl.
  rewrite (executemany_stored _ _ e Hnd He).
  split; [intros q Hq | intros Hq]; by rewrite Hq.
Qed.

(** X9. When no candidate raises, some candidate passes the checks and the
    total of the reconciled weights tests as [<= 0], the run logs the
    total, raises "Attribution data contains no valid IHC values" and
    stores nothing. *)
Theorem load_rejects_nonpositive_total (api_responses : list json) w candidates :
  (flatten_responses api_responses w).1 = Return candidates →
  (∀ (c : json) x, c ∈ candidates → validate c ≠ Fail x) →
  kept candidates ≠ [] →
  le_zero (total_ihc (foldl add_if_new [] (kept candidates))) = true →
  ∃ w',
    load_attribution_results api_responses w
    = (Raise (ValueError "Attribution data contains no valid IHC values"), w')
    ∧ db w' = db w
    ∧ (ERROR, Invalid_total_IHC_value
                (total_ihc (foldl add_if_new [] (kept candidates))))
      ∈ log w'.
Proof.
  intros Hflat Hok Hkept Htotal.
  pose proof (first_wins_nonempty candidates Hkept) as Hrecords.
  set (records := foldl add_if_new [] (kept candidates)) in *.
  unfold load_attribution_results, load_body, try_except.
  rewrite bind_logger. set (w0 := {| db := db w; log := _ |}).
  pose proof (log_only_flatten_responses api_responses) as Hlo.
  rewrite (log_only_outcome _ w w0 Hlo) in Hflat.
  pose proof (log_only_db _ w0 Hlo) as Hdb1.
  destruct (flatten_responses api_responses w0) as [o w1] eqn:Hfl.
  simpl in Hflat, Hdb1. subst o.
  destruct (reconcile_returns candidates w1 Hok) as (w2 & Hrec).
  pose proof (log_only_db _ w1 (log_only_reconcile candidates)) as Hdb2.
  rewrite Hrec in Hdb2. simpl in Hdb2.
  rewrite (bind_return _ _ _ _ _ Hfl), (bind_return _ _ _ _ _ Hrec).
  fold records. destruct (length records =? 0) eqn:Hlen.
  { apply Nat.eqb_eq, nil_length_inv in Hlen. done. }
  rewrite Htotal, bind_logger. eexists. split; [done |]. simpl.
  split; [congruence |]. rewrite !elem_of_app. left. right. left.
Qed.

End LoadAndVerify.

Section ConcreteLoads.
Import Examples.

Local Ltac each_candidate Hin :=
  repeat (apply elem_of_cons in Hin as [->|Hin]); [.. | inversion Hin].

Lemma reconcile_records_wellformed_witness :
  NoDup (Loader.entry_key <$>
           [ {| Loader.conv_id := "c1"; Loader.session_id := "s1";
                Loader.ihc := Finite (6 # 10) |};
             {| Loader.conv_id := "c1"; Loader.session_id := "s2";
                Loader.ihc := Finite (4 # 10) |} ])
  ∧ ∀ e,
      e ∈ [ {| Loader.conv_id := "c1"; Loader.session_id := "s1";
               Loader.ihc := Finite (6 # 10) |};
            {| Loader.conv_id := "c1"; Loader.session_id := "s2";
               Loader.ihc := Finite (4 # 10) |} ] →
      Loader.conv_id e ≠ "" ∧ Loader.session_id e ≠ ""
      ∧ ∃ c : json, c ∈ repeated_key_stream ∧ Loader.validate c = Loader.Keep e.
Proof.
  apply (reconcile_records_wellformed repeated_key_stream fresh _
           (Loader.reconcile repeated_key_stream fresh).2).
  vm_compute. reflexivity.
Defined.

Lemma load_then_verify_witness :
  let records :=
    foldl Loader.add_if_new []
      (Loader.kept (mjoin (Loader.candidates_of <$> two_shapes))) in
  (records = [] →
   Loader.db (Loader.load_attribution_results two_shapes fresh).2
   = Loader.db fresh)
  ∧ ∀ e q, e ∈ records → Loader.ihc e = Finite q → (0 < q)%Q →
      (Verification.verify_attribution_data
         (Loader.db (Loader.load_attribution_results two_shapes fresh).2)).1
      = true.
Proof.
  apply (load_then_verify two_shapes fresh).
  vm_compute. reflexivity.
Defined.

Lemma load_keeps_unmentioned_keys_witness :
  Loader.stored
    (attribution_customer_journey
       (Loader.db (Loader.load_attribution_results repeated_key earlier_run).2))
    ("c9", "s9")
  = Loader.stored
      (attribution_customer_journey (Loader.db earlier_run)) ("c9", "s9").
Proof.
  apply (load_keeps_unmentioned_keys repeated_key earlier_run "c9" "s9").
  intros candidate e Hin Hv.
  change (mjoin (Loader.candidates_of <$> repeated_key))
    with repeated_key_stream in Hin.
  each_candidate Hin; injection Hv as <-; discriminate.
Defined.

Lemma load_stores_reconciled_witness :
  (Loader.load_attribution_results two_shapes fresh).1 = Return tt
  ∧ ∀ e,
      e ∈ foldl Loader.add_if_new []
            (Loader.kept [candidate "c1" "s1" (6 # 10);
                          candidate "c1" "s2" (4 # 10)]) →
      let held :=
        Loader.stored
          (attribution_customer_journey
             (Loader.db (Loader.load_attribution_results two_shapes fresh).2))
          (Loader.entry_key e) in
      (∀ q, Loader.ihc e = Finite q → held = [Some q])
      ∧ (Loader.ihc e = NaN → held = [None]).
Proof.
  apply (load_stores_reconciled two_shapes fresh).
  - reflexivity.
  - intros c x Hin. each_candidate Hin; discriminate.
  - discriminate.
  - reflexivity.
Defined.

Lemma load_rejects_nonpositive_total_witness :
  ∃ w',
    Loader.load_attribution_results zero_weight fresh
    = (Raise (ValueError "Attribution data contains no valid IHC values"), w')
    ∧ Loader.db w' = Loader.db fresh
    ∧ (Loader.ERROR,
       Loader.Invalid_total_IHC_value
         (Loader.total_ihc
            (foldl Loader.add_if_new []
               (Loader.kept [candidate "c1" "s1" 0]))))
      ∈ Loader.log w'.
Proof.
  apply (load_rejects_nonpositive_total zero_weight fresh).
  - reflexivity.
  - intros c x Hin. each_candidate Hin; discriminate.
  - discriminate.
  - reflexivity.
Defined.

End ConcreteLoads.
(** ** Submission *)

Section Submission.
Import Run Client.

Variable post : nat → nat → list JourneyEntry → reply.
Variable conv_type_id : string.

Local Abbreviation request := (Client.request post conv_type_id).
Local Abbreviation retry := (Client.retry post conv_type_id).
Local Abbreviation send_chunk := (Client.send_chunk post conv_type_id).
Local Abbreviation send_body := (Client.send_body post conv_type_id).
Local Abbreviation send_transformed_data := (Client.send_transformed_data post conv_type_id).
Local Abbreviation first_accepted := (Client.first_accepted post conv_type_id).
Local Abbreviation succeeds := (Client.succeeds post conv_type_id).
Local Abbreviation exhausted := (Client.exhausted post conv_type_id).
Local Abbreviation collected := (Client.collected post conv_type_id).

Implicit Types (w : World) (acc : sending) (data chunk : list JourneyEntry).
Implicit Types (batch : nat * list JourneyEntry).

Lemma first_accepted_0 attempt batch : first_accepted 0 attempt batch = None.
Proof. done. Qed.

Lemma first_accepted_S budget attempt batch :
  first_accepted (S budget) attempt batch
  = match request batch.1 attempt batch.2 with
    | Return response_data => Some response_data
    | Raise _ => first_accepted budget (S attempt) batch
    end.
Proof. unfold first_accepted. simpl. by destruct (request _ _ _). Qed.

Lemma first_accepted_None budget batch : ∀ attempt,
  first_accepted budget attempt batch = None ↔
  ∀ a, attempt ≤ a < attempt + budget → ∃ e, request batch.1 a batch.2 = Raise e.
Proof.
  induction budget as [|budget IH]; intros attempt.
  - split; [intros _ a ?; lia | done].
  - rewrite first_accepted_S. split.
    + intros Hnone a Ha.
      destruct (request batch.1 attempt batch.2) as [d|e] eqn:Hreq; [done |].
      destruct (decide (a = attempt)) as [->|Hne]; [by exists e |].
      apply (proj1 (IH (S attempt)) Hnone). lia.
    + intros Hall. destruct (Hall attempt) as [e ->]; [lia |].
      apply IH. intros a Ha. apply Hall. lia.
Qed.

Lemma first_accepted_exhausted batch :
  first_accepted max_attempts 0 batch = None ↔ exhausted batch.
Proof.
  rewrite first_accepted_None. unfold Client.exhausted.
  split; intros Hall a Ha; apply Hall; lia.
Qed.

Lemma first_accepted_succeeds batch :
  is_Some (first_accepted max_attempts 0 batch) ↔ succeeds batch.
Proof.
  rewrite <- not_eq_None_Some, first_accepted_exhausted.
  unfold Client.exhausted, Client.succeeds. split.
  - intros Hnot.
    destruct (first_accepted max_attempts 0 batch) as [d|] eqn:Hfa.
    + clear Hnot. revert Hfa. unfold Client.first_accepted.
      intros Hhead. apply head_Some_elem_of in Hhead.
      apply list_elem_of_omap in Hhead as (a & Ha & Hreq).
      apply elem_of_seq in Ha.
      destruct (request batch.1 a batch.2) as [d'|] eqn:Hr; [| done].
      exists a, d'. split; [lia | done].
    + by apply first_accepted_exhausted in Hfa.
  - intros (a & d & Ha & Hreq) Hall. destruct (Hall a Ha) as [e He]. congruence.
Qed.

Lemma bind_client_logger {B} lvl msg (k : unit → M World B) w :
  bind (logger lvl msg) k w
  = k tt {| log := log w ++ [(lvl, msg)]; slept := slept w;
            api_response_json := api_response_json w |}.
Proof. reflexivity. Qed.

Lemma bind_sleep {B} seconds (k : unit → M World B) w :
  bind (sleep seconds) k w
  = k tt {| log := log w; slept := slept w ++ [seconds];
            api_response_json := api_response_json w |}.
Proof. reflexivity. Qed.

Lemma bind_client_ret {A B} (a : A) (k : A → M World B) w :
  bind (ret a) k w = k a w.
Proof. reflexivity. Qed.

Lemma bind_client_return {A B} (m : M World A) (k : A → M World B) w a w' :
  m w = (Return a, w') → bind m k w = k a w'.
Proof. intros Hm. unfold bind. by rewrite Hm. Qed.

(** What the retry loop of one batch returns and logs. *)
Lemma retry_spec i total_chunks chunk budget : ∀ attempt acc w,
  ∃ w',
    retry budget attempt i total_chunks chunk acc w
    = (Return match first_accepted budget attempt (i, chunk) with
              | Some response_data =>
                  {| responses := responses acc ++ [response_data];
                     successful_chunks := successful_chunks acc + 1 |}
              | None => acc
              end, w')
    ∧ (∀ line, line ∈ log w → line ∈ log w')
    ∧ (first_accepted budget attempt (i, chunk) = None →
       budget ≠ 0 → attempt + budget = max_attempts →
       (ERROR, Chunk_failed_after_attempts i total_chunks max_attempts)
       ∈ log w').
Proof.
  induction budget as [|budget IH]; intros attempt acc w.
  - exists w. by rewrite first_accepted_0.
  - rewrite first_accepted_S. cbn [Client.retry fst snd].
    destruct (request i attempt chunk) as [d|e].
    + rewrite bind_client_logger.
      destruct (i <? total_chunks).
      * rewrite bind_sleep. eexists. split; [done |]. split; [| done].
        intros line Hin. simpl. apply elem_of_app. by left.
      * eexists. split; [done |]. split; [| done].
        intros line Hin. simpl. apply elem_of_app. by left.
    + cbv zeta. rewrite bind_client_logger, bind_sleep.
      destruct (max_attempts <=? attempt + 1) eqn:Hlast.
      * rewrite bind_client_logger.
        edestruct (IH (attempt + 1)) as (w' & -> & Hmono & _).
        rewrite Nat.add_1_r. eexists. split; [done |]. split.
        -- intros line Hin. apply Hmono. simpl.
           rewrite !elem_of_app. by do 2 left.
        -- intros _ _ _. apply Hmono. simpl. apply elem_of_app. right. left.
      * apply Nat.leb_gt in Hlast. rewrite bind_client_ret.
        edestruct (IH (attempt + 1)) as (w' & -> & Hmono & Hfail).
        rewrite Nat.add_1_r in *. eexists. split; [done |]. split.
        -- intros line Hin. apply Hmono. simpl. apply elem_of_app. by left.
        -- intros Hnone _ Hsum. apply Hfail; [done | lia | lia].
Qed.

(** What the loop over the batches returns and logs. *)
Lemma send_loop total_chunks items : ∀ acc w,
  (∀ batch, batch ∈ items → batch.2 ≠ []) →
  ∃ acc' w',
    foldM (send_chunk total_chunks) acc items w = (Return acc', w')
    ∧ responses acc'
      = responses acc ++ omap (first_accepted max_attempts 0) items
    ∧ (∀ line, line ∈ log w → line ∈ log w')
    ∧ (∀ batch, batch ∈ items → exhausted batch →
         (ERROR, Chunk_failed_after_attempts batch.1 total_chunks max_attempts)
         ∈ log w').
Proof.
  induction items as [|[i chunk] items IH]; intros acc w Hne.
  - exists acc, w. simpl. rewrite app_nil_r.
    split_and!; try done. by intros ? ?%not_elem_of_nil.
  - cbn [foldM]. unfold Client.send_chunk at 1.
    destruct chunk as [|entry chunk'] eqn:Hchunk.
    { by destruct (Hne (i, []) ltac:(left)). }
    rewrite <- Hchunk.
    destruct (retry_spec i total_chunks chunk max_attempts 0 acc w)
      as (w1 & Hretry & Hmono1 & Hfail1).
    rewrite (bind_client_return _ _ _ _ _ Hretry).
    edestruct IH as (acc' & w' & Hloop & Hresp & Hmono & Hfail).
    { intros batch Hin. apply Hne. by right. }
    exists acc', w'. split; [exact Hloop |]. split_and!.
    + rewrite Hresp. simpl.
      destruct (first_accepted max_attempts 0 (i, chunk)); simpl; [| done].
      by rewrite <- (assoc_L (++)).
    + auto.
    + intros batch [->|Hin]%elem_of_cons Hex.
      * apply Hmono, Hfail1; [| done | done].
        by apply first_accepted_exhausted.
      * by apply Hfail.
Qed.

Lemma enumerate_length {A} (l : list A) : ∀ start,
  length (enumerate start l) = length l.
Proof. induction l as [|x l IH]; intros start; simpl; [done | by rewrite IH]. Qed.

Lemma batches_nonempty data batch : batch ∈ batches data → batch.2 ≠ [].
Proof.
  destruct batch as [i chunk]. intros Hin%enumerate_elem.
  by eapply create_chunks_nonempty.
Qed.

Lemma send_body_nonempty data w :
  data ≠ [] →
  ∃ w',
    send_body data w
    = (match collected data with
       | [] => Raise no_valid_responses
       | _ :: _ => Return (collected data)
       end, w')
    ∧ (∀ batch, batch ∈ batches data → exhausted batch →
         (ERROR, Chunk_failed_after_attempts batch.1
                   (length (Batcher.create_chunks data)) max_attempts)
         ∈ log w').
Proof.
  intros Hdata. unfold Client.send_body.
  destruct data as [|entry data'] eqn:Hd; [done |]. rewrite <- Hd. cbv zeta.
  rewrite bind_client_logger.
  edestruct (send_loop (length (Batcher.create_chunks data))
               (enumerate 1 (Batcher.create_chunks data))
               {| responses := []; successful_chunks := 0 |})
    as (acc' & w' & Hloop & Hresp & Hmono & Hfail).
  { apply batches_nonempty. }
  rewrite (bind_client_return _ _ _ _ _ Hloop), bind_client_logger.
  simpl in Hresp. rewrite Hresp. fold (Client.batches data).
  fold (collected data).
  destruct (collected data) as [|d ds].
  - eexists. split; [done |]. intros batch Hin Hex. simpl.
    apply elem_of_app. left. by apply Hfail.
  - eexists. split; [done |]. intros batch Hin Hex.
    pose proof (Hfail batch Hin Hex). simpl. rewrite !elem_of_app. tauto.
Qed.

Lemma collected_nil_iff data :
  collected data = [] ↔ ∀ batch, batch ∈ batches data → exhausted batch.
Proof.
  unfold Client.collected. split.
  - intros Hnil batch Hin. apply first_accepted_exhausted.
    destruct (first_accepted max_attempts 0 batch) as [d|] eqn:Hfa; [| done].
    assert (d ∈ omap (first_accepted max_attempts 0) (batches data)) as Hd
      by (apply list_elem_of_omap; by exists batch).
    rewrite Hnil in Hd. by apply not_elem_of_nil in Hd.
  - intros Hall. induction (batches data) as [|batch l IH]; [done |]. simpl.
    rewrite (proj2 (first_accepted_exhausted batch)) by (apply Hall; left).
    apply IH. intros ? ?. apply Hall. by right.
Qed.

(** C7, as the code has it.  For a non-empty input:
    - [send_transformed_data] raises "No valid API responses received"
      exactly when every batch fails at each of its three attempts;
    - when some batch obtains an accepted response, it returns the first
      accepted response of each batch that has one, in batch order;
    - a batch that fails at all its attempts leaves the error line
      "failed after 3 attempts" in the log, and does not stop the run. *)
Theorem send_transformed_data_outcome data w :
  data ≠ [] →
  ((send_transformed_data data w).1 = Raise no_valid_responses
   ↔ ∀ batch, batch ∈ batches data → exhausted batch)
  ∧ ((∃ batch, batch ∈ batches data ∧ succeeds batch) →
     (send_transformed_data data w).1 = Return (collected data))
  ∧ (∀ batch, batch ∈ batches data → exhausted batch →
       (ERROR, Chunk_failed_after_attempts batch.1
                 (length (Batcher.create_chunks data)) max_attempts)
       ∈ log (send_transformed_data data w).2).
Proof.
  intros Hdata.
  destruct (send_body_nonempty data w Hdata) as (w' & Hbody & Hfail).
  unfold Client.send_transformed_data, try_except. rewrite Hbody.
  pose proof (collected_nil_iff data) as Hnil.
  destruct (collected data) as [|d ds] eqn:Hcol; split_and!.
  - split; [intros _; by apply Hnil | done].
  - intros (batch & Hin & Hsucc%first_accepted_succeeds).
    rewrite (proj2 (first_accepted_exhausted batch)) in Hsucc
      by (by apply Hnil).
    by destruct Hsucc.
  - intros batch Hin Hex. simpl. apply elem_of_app. left. by apply Hfail.
  - split; [done |]. intros Hall. by apply Hnil in Hall.
  - done.
  - done.
Qed.

(** On the empty input no batch is formed, so no batch succeeds, and what
    is raised is the guard's own error. *)
Lemma send_transformed_data_empty_input data w :
  data = [] →
  (∀ batch, batch ∈ batches data → exhausted batch)
  ∧ send_transformed_data data w
    = (Raise empty_or_invalid,
       {| log := log w ++
                 [(ERROR,
                   Fatal_error_in_send_transformed_data empty_or_invalid)];
          slept := slept w;
          api_response_json := api_response_json w |}).
Proof.
  intros ->. split; [| done].
  intros batch Hin. by apply not_elem_of_nil in Hin.
Qed.

End Submission.

(** *** The statements at concrete services *)

(** C7 as stated fails on the empty input: zero batches obtain a success
    response, yet the error raised is not "No valid API responses
    received". *)
Lemma send_transformed_data_not_iff_on_empty :
  ¬ ((Client.send_transformed_data Examples.always_ok "conv" []
        Examples.quiet).1 = Raise Client.no_valid_responses
     ↔ ∀ batch, batch ∈ Client.batches [] →
         Client.exhausted Examples.always_ok "conv" batch).
Proof.
  intros [_ Hraise].
  assert ((Client.send_transformed_data Examples.always_ok "conv" []
             Examples.quiet).1 = Raise Client.no_valid_responses) as Heq.
  { apply Hraise. intros batch Hin. inversion Hin. }
  vm_compute in Heq. discriminate Heq.
Qed.

Lemma send_transformed_data_outcome_witness :
  ((Client.send_transformed_data Examples.flaky "conv"
      Examples.ninety_journeys Examples.quiet).1
   = Raise Client.no_valid_responses
   ↔ ∀ batch, batch ∈ Client.batches Examples.ninety_journeys →
       Client.exhausted Examples.flaky "conv" batch)
  ∧ ((∃ batch, batch ∈ Client.batches Examples.ninety_journeys
               ∧ Client.succeeds Examples.flaky "conv" batch) →
     (Client.send_transformed_data Examples.flaky "conv"
        Examples.ninety_journeys Examples.quiet).1
     = Return (Client.collected Examples.flaky "conv"
                 Examples.ninety_journeys))
  ∧ (∀ batch, batch ∈ Client.batches Examples.ninety_journeys →
       Client.exhausted Examples.flaky "conv" batch →
       (Client.ERROR,
        Client.Chunk_failed_after_attempts batch.1
          (length (Batcher.create_chunks Examples.ninety_journeys))
          Client.max_attempts)
       ∈ Client.log (Client.send_transformed_data Examples.flaky "conv"
                       Examples.ninety_journeys Examples.quiet).2).
Proof.
  apply (send_transformed_data_outcome Examples.flaky "conv"
           Examples.ninety_journeys Examples.quiet).
  intros Hnil. apply (f_equal length) in Hnil.
  vm_compute in Hnil. discriminate Hnil.
Defined.

(** The run against [flaky]: the first batch is given up after sleeping 2,
    4 and 8 seconds, the second is accepted at its second attempt, and the
    one collected response is returned and saved. *)
Example send_transformed_data_flaky :
  let r := Client.send_transformed_data Examples.flaky "conv"
             Examples.ninety_journeys Examples.quiet in
  r.1 = Return [Examples.envelope [Examples.candidate "c1" "s1" 1]]
  ∧ Client.slept r.2 = [2; 4; 8; 2]
  ∧ Client.api_response_json r.2
    = Some [Examples.envelope [Examples.candidate "c1" "s1" 1]].
Proof. vm_compute. done. Qed.

(** ** More on submission *)

Section SubmissionEffects.
Import Run Client.

Variable post : nat → nat → list JourneyEntry → reply.
Variable conv_type_id : string.

Local Abbreviation request := (Client.request post conv_type_id).
Local Abbreviation retry := (Client.retry post conv_type_id).
Local Abbreviation send_chunk := (Client.send_chunk post conv_type_id).
Local Abbreviation send_body := (Client.send_body post conv_type_id).
Local Abbreviation send_transformed_data :=
  (Client.send_transformed_data post conv_type_id).

Implicit Types (w : World) (acc : sending) (data chunk : list JourneyEntry).

Lemma one_le_backoff attempt : 1 ≤ backoff_base ^ (attempt + 1).
Proof.
  pose proof (Nat.pow_nonzero backoff_base (attempt + 1)) as Hnz.
  unfold backoff_base in *. lia.
Qed.

(** What the retry loop of one batch does to the clock, to the response
    file and to the counters. *)
Lemma retry_effects i total_chunks chunk budget : ∀ attempt acc w,
  ∃ acc' w',
    retry budget attempt i total_chunks chunk acc w = (Return acc', w')
    ∧ sum_list (slept w') ≤ sum_list (slept w) + backoff_total budget attempt
    ∧ api_response_json w' = api_response_json w
    ∧ successful_chunks acc' + length (responses acc)
      = successful_chunks acc + length (responses acc').
Proof.
  induction budget as [|budget IH]; intros attempt acc w.
  - exists acc, w. simpl. split_and!; [done | lia | done | lia].
  - cbn [Client.retry backoff_total].
    pose proof (one_le_backoff attempt) as Hone.
    destruct (request i attempt chunk) as [d|e].
    + rewrite bind_client_logger.
      destruct (i <? total_chunks).
      * rewrite bind_sleep. eexists _, _. split; [done |]. simpl.
        rewrite sum_list_with_app, length_app. simpl. split_and!; [lia | done | lia].
      * eexists _, _. split; [done |]. simpl.
        rewrite length_app. simpl. split_and!; [lia | done | lia].
    + cbv zeta. rewrite bind_client_logger, bind_sleep.
      destruct (max_attempts <=? attempt + 1).
      * rewrite bind_client_logger.
        edestruct (IH (attempt + 1) acc) as (acc' & w' & -> & Hs & Hj & Hn).
        exists acc', w'. split; [done |]. simpl in Hs, Hj.
        rewrite sum_list_with_app in Hs. simpl in Hs. split_and!; [lia | done | done].
      * rewrite bind_client_ret.
        edestruct (IH (attempt + 1) acc) as (acc' & w' & -> & Hs & Hj & Hn).
        exists acc', w'. split; [done |]. simpl in Hs, Hj.
        rewrite sum_list_with_app in Hs. simpl in Hs. split_and!; [lia | done | done].
Qed.

Lemma send_loop_effects total_chunks items : ∀ acc w,
  ∃ acc' w',
    foldM (send_chunk total_chunks) acc items w = (Return acc', w')
    ∧ sum_list (slept w')
      ≤ sum_list (slept w) + backoff_total max_attempts 0 * length items
    ∧ api_response_json w' = api_response_json w
    ∧ successful_chunks acc' + length (responses acc)
      = successful_chunks acc + length (responses acc').
Proof.
  induction items as [|[i chunk] items IH]; intros acc w.
  - exists acc, w. simpl. split_and!; [done | lia | done | lia].
  - cbn [foldM]. unfold Client.send_chunk at 1.
    destruct chunk as [|entry chunk'].
    + unfold bind at 1. rewrite bind_client_logger. unfold ret at 1.
      cbv beta iota.
      edestruct IH as (acc' & w' & -> & Hs & Hj & Hn).
      exists acc', w'. split; [done |]. simpl in *.
      split_and!; [lia | done | done].
    + destruct (retry_effects i total_chunks (entry :: chunk')
                  max_attempts 0 acc w) as (acc1 & w1 & Hretry & Hs1 & Hj1 & Hn1).
      rewrite (bind_client_return _ _ _ _ _ Hretry).
      destruct (IH acc1 w1) as (acc' & w' & -> & Hs & Hj & Hn).
      exists acc', w'. split; [done |]. simpl length.
      split_and!; [lia | congruence | lia].
Qed.

(** What a whole run does, by the way it ends. *)
Lemma send_transformed_data_effects data w :
  let r := send_transformed_data data w in
  sum_list (slept r.2)
  ≤ sum_list (slept w)
    + backoff_total max_attempts 0 * length (Batcher.create_chunks data)
  ∧ match r.1 with
    | Return rs =>
        api_response_json r.2 = Some rs
        ∧ rs ≠ []
        ∧ (INFO, Completed_sending_data (length rs)
                   (length (Batcher.create_chunks data))) ∈ log r.2
    | Raise _ => api_response_json r.2 = api_response_json w
    end.
Proof.
  cbv zeta. unfold Client.send_transformed_data, try_except, Client.send_body.
  destruct data as [|entry data'] eqn:Hd.
  { simpl. split; [lia | done]. }
  rewrite <- Hd. cbv zeta. rewrite bind_client_logger.
  set (w0 := {| log := _; slept := slept w;
                api_response_json := api_response_json w |}).
  destruct (send_loop_effects (length (Batcher.create_chunks data))
              (enumerate 1 (Batcher.create_chunks data))
              {| responses := []; successful_chunks := 0 |} w0)
    as (acc' & w' & Hloop & Hs & Hj & Hn).
  rewrite enumerate_length in Hs. simpl in Hs, Hj, Hn.
  rewrite (bind_client_return _ _ _ _ _ Hloop), bind_client_logger.
  destruct (responses acc') as [|d ds] eqn:Hresp.
  - simpl. split; [lia | done].
  - unfold save_response. simpl. split; [lia |]. split_and!; [done.. |].
    replace (successful_chunks acc') with (S (length ds)) by (simpl in Hn; lia).
    rewrite !elem_of_app. do 2 left. right. left.
Qed.

(** X10. Whatever the service answers, a run sleeps at most 14 seconds per
    batch on top of what the process had slept before. *)
Theorem send_transformed_data_sleep_bound data w :
  sum_list (slept (send_transformed_data data w).2)
  ≤ sum_list (slept w) + 14 * length (Batcher.create_chunks data).
Proof. apply (send_transformed_data_effects data w). Qed.

(** X11. When a run returns, the responses it returns are not empty, they
    are what it has written to the response file, and their number is the
    number of successful chunks it has logged; when it raises, the
    response file is left as it was. *)
Theorem send_transformed_data_response_file data w :
  match (send_transformed_data data w).1 with
  | Return rs =>
      api_response_json (send_transformed_data data w).2 = Some rs
      ∧ rs ≠ []
      ∧ (INFO, Completed_sending_data (length rs)
                 (length (Batcher.create_chunks data)))
        ∈ log (send_transformed_data data w).2
  | Raise _ =>
      api_response_json (send_transformed_data data w).2
      = api_response_json w
  end.
Proof. apply (send_transformed_data_effects data w). Qed.

Lemma send_loop_all_accepted total_chunks chunks : ∀ start acc w,
  (∀ i chunk, ((i, chunk) ∈ enumerate start chunks) →
              chunk ≠ [] ∧ ∃ d, request i 0 chunk = Return d) →
  start + length chunks = total_chunks + 1 →
  ∃ acc' w',
    foldM (send_chunk total_chunks) acc (enumerate start chunks) w
    = (Return acc', w')
    ∧ length (responses acc') = length (responses acc) + length chunks
    ∧ slept w' = slept w ++ replicate (length chunks - 1) 1.
Proof.
  induction chunks as [|chunk chunks IH]; intros start acc w Hall Htotal.
  - exists acc, w. simpl. rewrite app_nil_r. split_and!; [done | lia | done].
  - cbn [enumerate foldM]. unfold Client.send_chunk at 1.
    destruct (Hall start chunk) as [Hne [d Hreq]]; [left |].
    destruct chunk as [|entry chunk'] eqn:Hchunk; [done |]. rewrite <- Hchunk in *.
    unfold bind at 1. unfold max_attempts at 1. cbn [Client.retry].
    rewrite Hreq, bind_client_logger. simpl length in Htotal.
    assert (∀ i c, ((i, c) ∈ enumerate (S start) chunks) →
                   c ≠ [] ∧ ∃ d, request i 0 c = Return d) as Hall'
      by (intros ? ? ?; apply Hall; by right).
    destruct chunks as [|next chunks'] eqn:Hrest.
    + assert ((start <? total_chunks) = false) as ->
        by (apply Nat.ltb_ge; simpl in Htotal; lia).
      rewrite bind_client_ret. unfold ret at 1. cbv beta iota.
      eexists _, _. split; [done |]. simpl.
      rewrite length_app, app_nil_r. simpl. split; [lia | done].
    + rewrite <- Hrest in *.
      assert ((start <? total_chunks) = true) as ->
        by (apply Nat.ltb_lt; rewrite Hrest in Htotal; simpl in Htotal; lia).
      rewrite bind_sleep. unfold ret at 1. cbv beta iota.
      edestruct (IH (S start)) as (acc' & w' & -> & Hlen & Hslept);
        [done | lia |].
      exists acc', w'. split; [done |]. rewrite Hlen, Hslept. simpl.
      rewrite length_app. simpl. split; [lia |].
      rewrite <- (assoc_L (++)). f_equal. rewrite Hrest. simpl.
      by rewrite Nat.sub_0_r.
Qed.

(** X12. When the service accepts the first request made for every batch,
    a run on non-empty data returns one response per chunk, and sleeps
    exactly one second after each chunk but the last. *)
Theorem send_transformed_data_all_accepted data w :
  data ≠ [] →
  (∀ batch, batch ∈ batches data →
            ∃ response_data, request batch.1 0 batch.2 = Return response_data) →
  ∃ rs,
    (send_transformed_data data w).1 = Return rs
    ∧ length rs = length (Batcher.create_chunks data)
    ∧ slept (send_transformed_data data w).2
      = slept w ++ replicate (length (Batcher.create_chunks data) - 1) 1.
Proof.
  intros Hdata Hall.
  assert (Batcher.create_chunks data ≠ []) as Hchunks.
  { intros Hnil. destruct (create_chunks_blocks data) as (blocks & Hjoin & Hc & _).
    pose proof (flat_group_by_conversion_id data) as Hperm.
    rewrite <- Hjoin, flat_join, <- Hc, Hnil in Hperm.
    simpl in Hperm. by apply Permutation_nil_l in Hperm. }
  unfold Client.send_transformed_data, try_except, Client.send_body.
  destruct data as [|entry data'] eqn:Hd; [done |]. rewrite <- Hd in *.
  cbv zeta. rewrite bind_client_logger.
  edestruct (send_loop_all_accepted (length (Batcher.create_chunks data))
               (Batcher.create_chunks data) 1
               {| responses := []; successful_chunks := 0 |})
    as (acc' & w' & Hloop & Hlen & Hslept).
  { intros i chunk Hin. split.
    - apply (batches_nonempty data (i, chunk) Hin).
    - apply (Hall (i, chunk) Hin). }
  { lia. }
  rewrite (bind_client_return _ _ _ _ _ Hloop), bind_client_logger.
  simpl in Hlen, Hslept.
  destruct (responses acc') as [|d ds] eqn:Hresp.
  { simpl in Hlen. destruct (Batcher.create_chunks data); [done | simpl in Hlen; lia]. }
  exists (d :: ds). unfold save_response. simpl. by split_and!.
Qed.

End SubmissionEffects.

Section ConcreteSubmissions.
Import Examples.

Lemma send_transformed_data_all_accepted_witness :
  ∃ rs,
    (Client.send_transformed_data always_ok "conv" ninety_journeys quiet).1
    = Return rs
    ∧ length rs = length (Batcher.create_chunks ninety_journeys)
    ∧ Client.slept
        (Client.send_transformed_data always_ok "conv" ninety_journeys quiet).2
      = Client.slept quiet
        ++ replicate (length (Batcher.create_chunks ninety_journeys) - 1) 1.
Proof.
  apply (send_transformed_data_all_accepted always_ok "conv"
           ninety_journeys quiet).
  - intros Hnil. apply (f_equal length) in Hnil.
    vm_compute in Hnil. discriminate Hnil.
  - intros batch Hin. exists (JArr []). reflexivity.
Defined.

End ConcreteSubmissions.

(** *** An empty conversion type *)

Section NoConversionType.
Import Run Client.

Variable post : nat → nat → list JourneyEntry → reply.

Implicit Types (w : World) (acc : sending) (data chunk : list JourneyEntry).

Lemma retry_no_conv_type i total_chunks chunk budget : ∀ attempt acc w,
  ∃ w',
    retry post "" budget attempt i total_chunks chunk acc w = (Return acc, w')
    ∧ sum_list (slept w') = sum_list (slept w) + backoff_total budget attempt
    ∧ api_response_json w' = api_response_json w.
Proof.
  induction budget as [|budget IH]; intros attempt acc w.
  - exists w. simpl. split_and!; [done | lia | done].
  - cbn [retry backoff_total].
    change (request post "" i attempt chunk)
      with (Raise (A:=json) (ValueError "conv_type_id cannot be empty")).
    cbv beta iota zeta. rewrite bind_client_logger, bind_sleep.
    destruct (max_attempts <=? attempt + 1).
    + rewrite bind_client_logger.
      edestruct (IH (attempt + 1) acc) as (w' & -> & Hs & Hj).
      exists w'. split; [done |]. simpl in Hs, Hj.
      rewrite sum_list_with_app in Hs. simpl in Hs. split; [lia | done].
    + rewrite bind_client_ret.
      edestruct (IH (attempt + 1) acc) as (w' & -> & Hs & Hj).
      exists w'. split; [done |]. simpl in Hs, Hj.
      rewrite sum_list_with_app in Hs. simpl in Hs. split; [lia | done].
Qed.

Lemma send_loop_no_conv_type total_chunks items : ∀ acc w,
  (∀ i chunk, ((i, chunk) ∈ items) → chunk ≠ []) →
  ∃ w',
    foldM (send_chunk post "" total_chunks) acc items w = (Return acc, w')
    ∧ sum_list (slept w')
      = sum_list (slept w) + backoff_total max_attempts 0 * length items
    ∧ api_response_json w' = api_response_json w.
Proof.
  induction items as [|[i chunk] items IH]; intros acc w Hne.
  - exists w. simpl. split_and!; [done | lia | done].
  - cbn [foldM]. unfold send_chunk at 1.
    destruct chunk as [|entry chunk']; [by destruct (Hne i []); [left |] |].
    destruct (retry_no_conv_type i total_chunks (entry :: chunk')
                max_attempts 0 acc w) as (w1 & Hretry & Hs1 & Hj1).
    rewrite (bind_client_return _ _ _ _ _ Hretry).
    destruct (IH acc w1) as (w' & -> & Hs & Hj).
    { intros ? ? ?. eapply Hne. by right. }
    exists w'. split; [done |]. simpl length. split; [lia | congruence].
Qed.

(** X13. With an empty [conv_type_id] and data that is not empty, whatever
    the service would answer, every attempt of every batch fails before a
    request is made: the run sleeps exactly 2 + 4 + 8 seconds per batch,
    writes no response file and raises "No valid API responses received". *)
Theorem send_transformed_data_no_conv_type data w :
  data ≠ [] →
  (send_transformed_data post "" data w).1 = Raise no_valid_responses
  ∧ sum_list (slept (send_transformed_data post "" data w).2)
    = sum_list (slept w) + 14 * length (Batcher.create_chunks data)
  ∧ api_response_json (send_transformed_data post "" data w).2
    = api_response_json w.
Proof.
  intros Hdata.
  unfold send_transformed_data, try_except, send_body.
  destruct data as [|entry data'] eqn:Hd; [done |].
  rewrite <- Hd. cbv zeta. rewrite bind_client_logger.
  set (w0 := {| log := _; slept := slept w;
                api_response_json := api_response_json w |}).
  destruct (send_loop_no_conv_type (length (Batcher.create_chunks data))
              (enumerate 1 (Batcher.create_chunks data))
              {| responses := []; successful_chunks := 0 |} w0)
    as (w' & Hloop & Hs & Hj).
  { intros i chunk Hin%enumerate_elem. by eapply create_chunks_nonempty. }
  rewrite enumerate_length in Hs. simpl in Hs, Hj.
  rewrite (bind_client_return _ _ _ _ _ Hloop), bind_client_logger.
  simpl. split_and!; [done | lia | done].
Qed.

End NoConversionType.

Section ConcreteNoConversionType.
Import Examples.

Lemma send_transformed_data_no_conv_type_witness :
  (Client.send_transformed_data always_ok "" ninety_journeys quiet).1
  = Raise Client.no_valid_responses
  ∧ sum_list
      (Client.slept
         (Client.send_transformed_data always_ok "" ninety_journeys quiet).2)
    = sum_list (Client.slept quiet)
      + 14 * length (Batcher.create_chunks ninety_journeys)
  ∧ Client.api_response_json
      (Client.send_transformed_data always_ok "" ninety_journeys quiet).2
    = Client.api_response_json quiet.
Proof.
  apply (send_transformed_data_no_conv_type always_ok ninety_journeys quiet).
  vm_compute. discriminate.
Defined.

End ConcreteNoConversionType.
(** ** Rollup *)

Section Rollup.
Import Run Reporting.

Implicit Types (d : Database) (ss : session_source).

(** C9. A session whose event date is blank and whose channel is not NULL
    does get rows from [channel_costs], each dated ['1970-01-01'], and it
    gets one row from [attribution_revenue] for every attribution record
    and conversion it joins with, dated with the date of that conversion;
    no row derived from it carries another date.  For a session of the
    table these rows are rows of the two expressions. *)
Theorem blank_event_date_defaults d ss :
  ss_event_date ss = Some "" →
  ss_channel_name ss ≠ None →
  (cost_facts_of d ss ≠ []
   ∧ ∀ fact, fact ∈ cost_facts_of d ss → cc_date fact = "1970-01-01")
  ∧ (∀ acj c,
       sql_eq (ss_session_id ss) (acj_session_id acj) = true →
       sql_eq (acj_conv_id acj) (c_conv_id c) = true →
       acj_session_id acj ≠ Some "" →
       ∃ fact, revenue_facts_of acj ss c = [fact]
               ∧ ar_date fact = c_conv_date c)
  ∧ (∀ acj c fact, fact ∈ revenue_facts_of acj ss c →
       ar_date fact = c_conv_date c)
  ∧ (ss ∈ session_sources d →
     (∀ fact, fact ∈ cost_facts_of d ss → fact ∈ channel_costs d)
     ∧ ∀ acj c fact,
         acj ∈ attribution_customer_journey d → c ∈ conversions d →
         fact ∈ revenue_facts_of acj ss c → fact ∈ attribution_revenue d).
Proof.
  intros Hblank Hchannel.
  destruct (ss_channel_name ss) as [channel|] eqn:Hch; [clear Hchannel | done].
  split_and!.
  - unfold cost_facts_of. rewrite Hch, Hblank. simpl.
    destruct (filter _ _) as [|sc matches]; done.
  - intros fact. unfold cost_facts_of.
    destruct (_ && _); [| by intros ?%not_elem_of_nil].
    destruct (filter _ _) as [|sc matches].
    + intros ->%list_elem_of_singleton. unfold cost_row. simpl.
      by rewrite Hblank.
    + intros (sc' & -> & _)%list_elem_of_fmap. unfold cost_row. simpl.
      by rewrite Hblank.
  - intros acj c Hsession Hconv Hid. exists (revenue_row acj ss c).
    unfold revenue_facts_of. rewrite Hsession, Hconv, Hch, Hblank. simpl.
    destruct (acj_session_id acj) as [id|] eqn:Hacj.
    + simpl. destruct (String.eqb id "") eqn:Hid'.
      * apply String.eqb_eq in Hid'. by subst id.
      * simpl. split; [done |]. unfold revenue_row. simpl. by rewrite Hblank.
    + by destruct (ss_session_id ss).
  - intros acj c fact. unfold revenue_facts_of.
    destruct (_ && _); [| by intros ?%not_elem_of_nil].
    intros ->%list_elem_of_singleton. unfold revenue_row. simpl.
    by rewrite Hblank.
  - intros Hss. split.
    + intros fact Hfact. unfold channel_costs. apply list_elem_of_bind.
      by exists ss.
    + intros acj c fact Hacj Hc Hfact. unfold attribution_revenue.
      apply list_elem_of_bind. exists acj. split; [| done].
      apply list_elem_of_bind. exists ss. split; [| done].
      apply list_elem_of_bind. by exists c.
Qed.

(** The rows of the report never belong to the ["unknown"] channel and never
    carry a date earlier than the minimum conversion date. *)
Lemma query_exclusions d row :
  row ∈ query d →
  channel_name row ≠ "unknown"
  ∧ ∃ m, min_conv_date d = Some m ∧ String.leb m (date row) = true.
Proof.
  unfold query. intros (key & -> & Hkey)%list_elem_of_fmap.
  apply list_elem_of_filter in Hkey as [Hhaving _].
  unfold having in Hhaving. apply andb_true_iff in Hhaving as [Hch Hdate].
  simpl. split.
  - intros Heq. rewrite Heq in Hch. done.
  - destruct key.2 as [day|]; [| done].
    destruct (min_conv_date d) as [m|]; [| done]. by exists m.
Qed.

(** *** What the last join does to the sums *)

Lemma sum_app xs ys : (sum (xs ++ ys) == sum xs + sum ys)%Q.
Proof.
  induction xs as [|x xs IH]; simpl.
  - by rewrite Qplus_0_l.
  - rewrite IH. by rewrite Qplus_assoc.
Qed.

Lemma times_0 x : (times 0 x == 0)%Q.
Proof. unfold times. simpl. apply Qmult_0_l. Qed.

Lemma times_S n x : (times (S n) x == x + times n x)%Q.
Proof.
  unfold times. rewrite Nat2Z.inj_succ, <- Z.add_1_r, inject_Z_plus. ring.
Qed.

Lemma times_plus n x y : (times n (x + y) == times n x + times n y)%Q.
Proof. unfold times. ring. Qed.

Lemma sum_replicate n x : (sum (replicate n x) == times n x)%Q.
Proof.
  induction n as [|n IH]; simpl.
  - by rewrite times_0.
  - by rewrite IH, times_S.
Qed.

Lemma paired_key costs ar row : row ∈ paired costs ar → row.1 = ar.
Proof.
  unfold paired. destruct costs as [|cc costs].
  - by intros ->%list_elem_of_singleton.
  - by intros (cc' & -> & _)%list_elem_of_fmap.
Qed.

Lemma joined_group d channel day :
  filter (fun row => group_key row = (channel, Some day)) (joined d)
  = revenue_facts_for d channel day
      ≫= paired (cost_facts_for d channel day).
Proof.
  unfold joined, revenue_facts_for.
  induction (attribution_revenue d) as [|ar facts IH]; [done |].
  rewrite bind_cons, filter_app, IH. clear IH.
  set (rows := paired (filter (same_key ar) (channel_costs d)) ar).
  assert (∀ row, row ∈ rows → row.1 = ar) as Hrows
    by (intros row; apply paired_key).
  destruct (decide (ar_channel_name ar = channel ∧ ar_date ar = Some day))
    as [[Hch Hday]|Hother].
  - rewrite filter_cons_True by done. rewrite bind_cons. f_equal.
    assert (filter (same_key ar) (channel_costs d)
            = cost_facts_for d channel day) as Hcosts.
    { unfold cost_facts_for. apply list_filter_iff. intros cc.
      unfold same_key. rewrite Hch, Hday. split.
      - by intros [-> [= ->]].
      - by intros [-> ->]. }
    subst rows. rewrite Hcosts in *.
    generalize dependent (paired (cost_facts_for d channel day) ar).
    intros l Hl. induction l as [|row l IHl]; [done |].
    rewrite filter_cons_True.
    + f_equal. apply IHl. intros ? ?. apply Hl. by right.
    + unfold group_key. rewrite (Hl row) by left. by rewrite Hch, Hday.
  - rewrite filter_cons_False by done.
    rewrite filter_none; [done |].
    intros row Hrow [= Hch Hday]. apply Hother.
    rewrite (Hrows row Hrow) in Hch, Hday. done.
Qed.

Lemma paired_costs costs ar :
  omap (fun row : revenue_fact * option cost_fact => cc_cost <$> row.2)
       (paired costs ar)
  = cc_cost <$> costs.
Proof.
  unfold paired. destruct costs as [|cc costs]; [done |].
  induction (cc :: costs) as [|cc' l IH]; [done |]. csimpl. by rewrite IH.
Qed.

Lemma paired_measure (f : revenue_fact → Q) costs ar :
  (fun row : revenue_fact * option cost_fact => f row.1)
    <$> paired costs ar
  = replicate (max 1 (length costs)) (f ar).
Proof.
  unfold paired. destruct costs as [|cc costs]; [done |].
  replace (max 1 (length (cc :: costs))) with (length (cc :: costs))
    by (simpl; lia).
  induction (cc :: costs) as [|cc' l IH]; [done |]. csimpl. by rewrite IH.
Qed.

Lemma sum_group_costs costs facts :
  (sum (omap (fun row : revenue_fact * option cost_fact => cc_cost <$> row.2)
          (facts ≫= paired costs))
   == times (length facts) (sum (cc_cost <$> costs)))%Q.
Proof.
  induction facts as [|ar facts IH].
  - simpl. by rewrite times_0.
  - rewrite bind_cons, omap_app, sum_app, IH, paired_costs. simpl length.
    by rewrite times_S.
Qed.

Lemma sum_group_measure (f : revenue_fact → Q) costs facts :
  (sum ((fun row : revenue_fact * option cost_fact => f row.1)
          <$> (facts ≫= paired costs))
   == times (max 1 (length costs)) (sum (f <$> facts)))%Q.
Proof.
  induction facts as [|ar facts IH].
  - simpl. unfold times. ring.
  - rewrite bind_cons, fmap_app, sum_app, IH, paired_measure, sum_replicate.
    csimpl. by rewrite times_plus.
Qed.

(** What each row of the report holds: the cost facts of its key summed
    and counted once per revenue fact of the key, and the weights and
    revenues of its key summed and counted once per cost fact of the key
    (once when there is none). *)
Lemma query_row_totals d row :
  row ∈ query d →
  let costs := cost_facts_for d (channel_name row) (date row) in
  let facts := revenue_facts_for d (channel_name row) (date row) in
  (cost row == times (length facts) (sum (cc_cost <$> costs)))%Q
  ∧ (ihc row == times (max 1 (length costs)) (sum (ar_ihc <$> facts)))%Q
  ∧ (ihc_revenue row
     == times (max 1 (length costs))
          (sum (attributed_revenue <$> facts)))%Q.
Proof.
  unfold query. intros (key & -> & Hkey)%list_elem_of_fmap.
  apply list_elem_of_filter in Hkey as [Hhaving _].
  unfold having in Hhaving. apply andb_true_iff in Hhaving as [_ Hdate].
  destruct key as [channel [day|]]; [| done]. cbv zeta.
  unfold aggregate_group. simpl. rewrite joined_group. split_and!.
  - apply sum_group_costs.
  - apply (sum_group_measure ar_ihc).
  - apply (sum_group_measure attributed_revenue).
Qed.

End Rollup.

(** *** The statements at concrete stores *)

Lemma blank_event_date_defaults_witness :
  (Reporting.cost_facts_of Examples.blank_date_db
     Examples.blank_date_session ≠ []
   ∧ ∀ fact,
       fact ∈ Reporting.cost_facts_of Examples.blank_date_db
                Examples.blank_date_session →
       Reporting.cc_date fact = "1970-01-01")
  ∧ (∀ acj c,
       sql_eq (ss_session_id Examples.blank_date_session)
              (acj_session_id acj) = true →
       sql_eq (acj_conv_id acj) (c_conv_id c) = true →
       acj_session_id acj ≠ Some "" →
       ∃ fact,
         Reporting.revenue_facts_of acj Examples.blank_date_session c = [fact]
         ∧ Reporting.ar_date fact = c_conv_date c)
  ∧ (∀ acj c fact,
       fact ∈ Reporting.revenue_facts_of acj Examples.blank_date_session c →
       Reporting.ar_date fact = c_conv_date c)
  ∧ (Examples.blank_date_session ∈ session_sources Examples.blank_date_db →
     (∀ fact,
        fact ∈ Reporting.cost_facts_of Examples.blank_date_db
                 Examples.blank_date_session →
        fact ∈ Reporting.channel_costs Examples.blank_date_db)
     ∧ ∀ acj c fact,
         acj ∈ attribution_customer_journey Examples.blank_date_db →
         c ∈ conversions Examples.blank_date_db →
         fact ∈ Reporting.revenue_facts_of acj Examples.blank_date_session c →
         fact ∈ Reporting.attribution_revenue Examples.blank_date_db).
Proof.
  apply (blank_event_date_defaults Examples.blank_date_db
           Examples.blank_date_session).
  - reflexivity.
  - discriminate.
Defined.

(** On [blank_date_db] the two expressions do produce a row each for the
    session, under two different dates, so the cost of the session is not
    joined to its revenue. *)
Example blank_event_date_rows :
  Reporting.cc_date <$> Reporting.channel_costs Examples.blank_date_db
  = ["1970-01-01"]
  ∧ Reporting.ar_date <$> Reporting.attribution_revenue Examples.blank_date_db
    = [Some "2023-09-01"]
  ∧ Reporting.joined Examples.blank_date_db
    = [ (Reporting.revenue_row (Examples.row "c1" "s1" 1)
           Examples.blank_date_session
           {| c_conv_id := Some "c1"; c_conv_date := Some "2023-09-01";
              c_revenue := Some 100%Q |}, None) ].
Proof. vm_compute. done. Qed.

(** C1 (failing input). Two sessions of one channel and day, each costing
    10 and each credited with half of a conversion worth 100: the facts of
    the key add up to a cost of 20, a weight of 1 and a revenue of 100, but
    the row written to [channel_reporting] has 40, 2 and 200, because the
    last join pairs each of the two revenue facts with each of the two cost
    facts before the sums are taken. *)
Theorem aggregate_channel_metrics_fan_out :
  let w := {| Reporting.db := Examples.two_sessions_one_day;
              Reporting.log := [] |} in
  let facts_cost :=
    Reporting.cc_cost <$>
      Reporting.cost_facts_for Examples.two_sessions_one_day
        "Direct" "2023-09-01" in
  let facts_revenue :=
    Reporting.revenue_facts_for Examples.two_sessions_one_day
      "Direct" "2023-09-01" in
  (Reporting.sum facts_cost == 20)%Q
  ∧ (Reporting.sum (Reporting.ar_ihc <$> facts_revenue) == 1)%Q
  ∧ (Reporting.sum (Reporting.attributed_revenue <$> facts_revenue) == 100)%Q
  ∧ ∃ row,
      (Reporting.aggregate_channel_metrics w).1 = Return tt
      ∧ channel_reporting (Reporting.db (Reporting.aggregate_channel_metrics w).2)
        = [row]
      ∧ channel_name row = "Direct"
      ∧ date row = "2023-09-01"
      ∧ (cost row == 40)%Q
      ∧ (ihc row == 2)%Q
      ∧ (ihc_revenue row == 200)%Q.
Proof.
  cbv zeta. split_and!; [by vm_compute.. |].
  eexists. split_and!; [by vm_compute | by vm_compute | by vm_compute.. ].
Qed.

(** ** More on the rollup and the report *)

Section RollupAndReport.
Import Run Reporting.
Context `{Sqlite}.

Implicit Types (d : Database) (w : World).

(** The query does not read [channel_reporting]. *)
Lemma query_ext d d' :
  session_sources d = session_sources d' →
  conversions d = conversions d' →
  session_costs d = session_costs d' →
  attribution_customer_journey d = attribution_customer_journey d' →
  query d = query d'.
Proof. destruct d, d'. simpl. by intros -> -> -> ->. Qed.

Lemma query_ignores_report d rows :
  query {| session_sources := session_sources d;
           conversions := conversions d;
           session_costs := session_costs d;
           attribution_customer_journey := attribution_customer_journey d;
           channel_reporting := rows |}
  = query d.
Proof. by apply query_ext. Qed.

Lemma Database_ext d d' :
  session_sources d = session_sources d' →
  conversions d = conversions d' →
  session_costs d = session_costs d' →
  attribution_customer_journey d = attribution_customer_journey d' →
  channel_reporting d = channel_reporting d' →
  d = d'.
Proof. destruct d, d'. simpl. by intros -> -> -> -> ->. Qed.

(** What a run returns and leaves in the store, by the result of the
    query. *)
Lemma aggregate_channel_metrics_cases w :
  match query (db w) with
  | [] =>
      (aggregate_channel_metrics w).1 = Raise no_results
      ∧ channel_reporting (db (aggregate_channel_metrics w).2) = []
  | _ :: _ =>
      (aggregate_channel_metrics w).1 = Return tt
      ∧ channel_reporting (db (aggregate_channel_metrics w).2) = query (db w)
  end
  ∧ session_sources (db (aggregate_channel_metrics w).2)
    = session_sources (db w)
  ∧ conversions (db (aggregate_channel_metrics w).2) = conversions (db w)
  ∧ session_costs (db (aggregate_channel_metrics w).2) = session_costs (db w)
  ∧ attribution_customer_journey (db (aggregate_channel_metrics w).2)
    = attribution_customer_journey (db w).
Proof.
  unfold aggregate_channel_metrics, aggregate_body, try_except, bind, gets,
    set_channel_reporting, logger, modify, ret, raise.
  destruct (length (attribution_customer_journey (db w)) =? 0); simpl;
    rewrite query_ignores_report; destruct (query (db w)); simpl; done.
Qed.

(** X14. A run rebuilds the report from the other tables alone: what the
    report held before has no influence on what it holds after, and a
    second run right after the first leaves the store as the first left
    it. *)
Theorem aggregate_channel_metrics_full_replace w rows :
  let w_other :=
    {| db := {| session_sources := session_sources (db w);
                conversions := conversions (db w);
                session_costs := session_costs (db w);
                attribution_customer_journey :=
                  attribution_customer_journey (db w);
                channel_reporting := rows |};
       log := log w |} in
  (aggregate_channel_metrics w_other).1 = (aggregate_channel_metrics w).1
  ∧ db (aggregate_channel_metrics w_other).2 = db (aggregate_channel_metrics w).2
  ∧ db (aggregate_channel_metrics (aggregate_channel_metrics w).2).2
    = db (aggregate_channel_metrics w).2.
Proof.
  cbv zeta. set (w_other := {| db := _; log := log w |}).
  assert (∀ w1 w2,
            session_sources (db w1) = session_sources (db w2) →
            conversions (db w1) = conversions (db w2) →
            session_costs (db w1) = session_costs (db w2) →
            attribution_customer_journey (db w1)
            = attribution_customer_journey (db w2) →
            (aggregate_channel_metrics w1).1 = (aggregate_channel_metrics w2).1
            ∧ db (aggregate_channel_metrics w1).2
              = db (aggregate_channel_metrics w2).2) as Hsame.
  { intros w1 w2 Hss Hc Hsc Hacj.
    pose proof (aggregate_channel_metrics_cases w1)
      as (Hq1 & Hss1 & Hc1 & Hsc1 & Hacj1).
    pose proof (aggregate_channel_metrics_cases w2)
      as (Hq2 & Hss2 & Hc2 & Hsc2 & Hacj2).
    rewrite (query_ext (db w1) (db w2)) in Hq1 by done.
    destruct (query (db w2)); destruct Hq1 as [-> Hr1], Hq2 as [-> Hr2];
      (split; [done |]); apply Database_ext; congruence. }
  pose proof (aggregate_channel_metrics_cases w) as (_ & Hss & Hc & Hsc & Hacj).
  split_and!.
  - by apply Hsame.
  - by apply Hsame.
  - by apply Hsame.
Qed.

Lemma report_after_run w :
  channel_reporting (db (aggregate_channel_metrics w).2) = query (db w).
Proof.
  pose proof (aggregate_channel_metrics_cases w) as (Hq & _).
  destruct (query (db w)); by destruct Hq.
Qed.

(** X15. A run never changes the session, conversion, cost and
    attribution tables.  It raises "Channel aggregation produced no
    results" exactly when the query gives no row, and the report is then
    left empty, whatever it held before; otherwise it returns normally. *)
Theorem aggregate_channel_metrics_outcome w :
  let r := aggregate_channel_metrics w in
  (session_sources (db r.2) = session_sources (db w)
   ∧ conversions (db r.2) = conversions (db w)
   ∧ session_costs (db r.2) = session_costs (db w)
   ∧ attribution_customer_journey (db r.2)
     = attribution_customer_journey (db w))
  ∧ (r.1 = Raise no_results ↔ query (db w) = [])
  ∧ (r.1 = Return tt ↔ query (db w) ≠ [])
  ∧ (r.1 = Raise no_results → channel_reporting (db r.2) = []).
Proof.
  cbv zeta.
  pose proof (aggregate_channel_metrics_cases w) as (Hq & Hss & Hc & Hsc & Hacj).
  split; [done |].
  destruct (query (db w)); destruct Hq as [-> Hr]; split_and!; try done.
Qed.

Lemma joined_keys d key :
  key ∈ group_key <$> joined d ↔
  ∃ ar, ar ∈ attribution_revenue d ∧ (ar_channel_name ar, ar_date ar) = key.
Proof.
  unfold joined. rewrite list_elem_of_fmap. split.
  - intros (row & -> & Hrow). apply list_elem_of_bind in Hrow as (ar & Hrow & Har).
    apply paired_key in Hrow. exists ar. split; [done |].
    unfold group_key. by rewrite Hrow.
  - intros (ar & Har & <-).
    set (matches := filter (same_key ar) (channel_costs d)).
    assert (∃ row, row ∈ paired matches ar) as [row Hrow].
    { unfold paired. destruct matches as [|cc rest]; eexists; left. }
    exists row. split.
    + unfold group_key. by rewrite (paired_key _ _ _ Hrow).
    + apply list_elem_of_bind. by exists ar.
Qed.

(** X16. After a run the report has a row for a channel and a day exactly
    when the channel is not ["unknown"], the day is not earlier than the
    minimum conversion date, and some attribution-revenue fact carries that
    channel and day.  A channel and day that only have costs get no row. *)
Theorem report_keys w channel day :
  (∃ row, row ∈ channel_reporting (db (aggregate_channel_metrics w).2)
          ∧ channel_name row = channel ∧ date row = day)
  ↔ channel ≠ "unknown"
    ∧ (∃ m, min_conv_date (db w) = Some m ∧ String.leb m day = true)
    ∧ ∃ ar, ar ∈ attribution_revenue (db w)
            ∧ ar_channel_name ar = channel ∧ ar_date ar = Some day.
Proof.
  rewrite report_after_run. unfold query. split.
  - intros (row & Hrow & <- & <-).
    apply list_elem_of_fmap in Hrow as ([ch [dy|]] & -> & Hkey);
      apply list_elem_of_filter in Hkey as [Hhaving Hkey];
      unfold having in Hhaving; apply andb_true_iff in Hhaving as [Hch Hdate];
      simpl in *; [| done].
    apply elem_of_remove_dups, joined_keys in Hkey as (ar & Har & [= <- Hday]).
    split_and!.
    + intros Heq. rewrite Heq in Hch. done.
    + destruct (min_conv_date (db w)) as [m|]; [by exists m | done].
    + by exists ar.
  - intros (Hch & (m & Hmin & Hle) & ar & Har & <- & Hday).
    exists (aggregate_group (db w) (ar_channel_name ar, Some day)).
    split; [| done]. apply list_elem_of_fmap. eexists. split; [done |].
    apply list_elem_of_filter. split.
    + unfold having. simpl. rewrite Hmin, Hle.
      apply String.eqb_neq in Hch. by rewrite Hch.
    + apply elem_of_remove_dups, joined_keys. exists ar. by rewrite Hday.
Qed.

(** X17. The rows a run writes have pairwise distinct
    [(channel_name, date)] keys: the primary key of the report is never
    violated by the inserts. *)
Theorem report_primary_key w :
  NoDup ((fun row => (channel_name row, date row))
           <$> channel_reporting (db (aggregate_channel_metrics w).2)).
Proof.
  rewrite report_after_run. unfold query. rewrite <- list_fmap_compose.
  apply NoDup_fmap_2_strong.
  - intros [ch1 day1] [ch2 day2] [H1 _]%list_elem_of_filter
      [H2 _]%list_elem_of_filter.
    unfold having in H1, H2.
    apply andb_true_iff in H1 as [_ H1]. apply andb_true_iff in H2 as [_ H2].
    simpl in *. destruct day1, day2; try done. by intros [= -> ->].
  - apply NoDup_filter, NoDup_remove_dups.
Qed.

(** X18. With an empty attribution table a run warns that no attribution
    data was found, empties the report and raises "Channel aggregation
    produced no results". *)
Theorem aggregate_channel_metrics_without_attribution w :
  attribution_customer_journey (db w) = [] →
  (aggregate_channel_metrics w).1 = Raise no_results
  ∧ channel_reporting (db (aggregate_channel_metrics w).2) = []
  ∧ (WARNING, No_attribution_data_found)
    ∈ log (aggregate_channel_metrics w).2.
Proof.
  intros Hempty.
  assert (query (db w) = []) as Hq.
  { unfold query, joined, attribution_revenue. by rewrite Hempty. }
  pose proof (aggregate_channel_metrics_cases w) as (Hcases & _).
  rewrite Hq in Hcases. destruct Hcases as [Hraise Hreport].
  split_and!; [done.. |].
  unfold aggregate_channel_metrics, aggregate_body, try_except, bind, gets,
    set_channel_reporting, logger, modify, ret, raise.
  rewrite Hempty. simpl. rewrite query_ignores_report, Hq. simpl.
  rewrite !elem_of_app. do 2 left. right. left.
Qed.

(** *** The report *)

#[local] Instance before_total : Total Report.before.
Proof.
  intros a b. unfold Report.before.
  rewrite (String.compare_antisym (channel_name b) (channel_name a)).
  destruct (String.compare (channel_name a) (channel_name b)); simpl;
    [| by left | by right].
  destruct (String.leb_total (date a) (date b)); [by left | by right].
Qed.

Lemma metric_line_of (rows : list channel_metric) :
  Report.metric <$> (Report.line_of <$> rows) = rows.
Proof. induction rows as [|row rows IH]; csimpl; [done | by rewrite IH]. Qed.

(** X19. The report lists the rows of [channel_reporting], each once, in
    the order of [channel_name] and then [date]. *)
Theorem export_channel_report_sorted d :
  Sorted Report.before (Report.metric <$> Report.export_channel_report d)
  ∧ Report.metric <$> Report.export_channel_report d ≡ₚ channel_reporting d.
Proof.
  unfold Report.export_channel_report. rewrite metric_line_of. split.
  - apply (Sorted_merge_sort _).
  - apply merge_sort_Permutation.
Qed.


End RollupAndReport.

Section ConcreteReports.
Import Examples.

Lemma aggregate_channel_metrics_without_attribution_witness :
  (Reporting.aggregate_channel_metrics stale_report).1
  = Raise Reporting.no_results
  ∧ channel_reporting
      (Reporting.db (Reporting.aggregate_channel_metrics stale_report).2) = []
  ∧ (Reporting.WARNING, Reporting.No_attribution_data_found)
    ∈ Reporting.log (Reporting.aggregate_channel_metrics stale_report).2.
Proof.
  apply (aggregate_channel_metrics_without_attribution stale_report).
  reflexivity.
Defined.


End ConcreteReports.

(** ** The transformer *)

Section Transformer.
Import Run.

Implicit Types (t : Transform.tables) (w : Transform.World).
Implicit Types (c : Transform.conversion) (s : Transform.session).

Lemma ltb_irrefl (x : string) : String.ltb x x = false.
Proof.
  unfold String.ltb. pose proof (String.compare_antisym x x) as Hanti.
  by destruct (String.compare x x).
Qed.

Lemma new_entries_elem t (e : JourneyEntry) :
  e ∈ Transform.new_entries t ↔
  ∃ c s, c ∈ Transform.conversions t ∧ s ∈ Transform.session_sources t
         ∧ Transform.user_id s = Transform.conv_user_id c
         ∧ String.ltb
             (Transform.stamp (Transform.event_date s) (Transform.event_time s))
             (Transform.stamp (Transform.conv_date c) (Transform.conv_time c))
           = true
         ∧ e = Transform.journey_entry c s.
Proof.
  unfold Transform.new_entries, Transform.user_sessions.
  rewrite list_elem_of_bind. split.
  - intros (c & (s & -> & Hs)%list_elem_of_fmap & Hc).
    apply list_elem_of_filter in Hs as [[Hu Hlt] Hs]. by exists c, s.
  - intros (c & s & Hc & Hs & Hu & Hlt & ->). exists c. split; [| done].
    apply list_elem_of_fmap. exists s. split; [done |].
    by apply list_elem_of_filter.
Qed.

(** What a call returns and leaves behind, by the entries the object holds
    once the new ones are appended. *)
Lemma transform_data_cases t w :
  Transform.transformed_data (Transform.transform_data t w).2
  = Transform.transformed_data w ++ Transform.new_entries t
  ∧ match Transform.transformed_data w ++ Transform.new_entries t with
    | [] =>
        (Transform.transform_data t w).1 = Raise Transform.no_journey_entries
        ∧ Transform.output_json (Transform.transform_data t w).2
          = Transform.output_json w
    | _ :: _ =>
        (Transform.transform_data t w).1
        = Return (Transform.transformed_data w ++ Transform.new_entries t)
        ∧ Transform.output_json (Transform.transform_data t w).2
          = Some (Transform.transformed_data w ++ Transform.new_entries t)
    end.
Proof.
  unfold Transform.transform_data, Transform.transform_body, try_except, bind,
    gets, Transform.append_entries, Transform.save_transformed_data,
    Transform.logger, modify, ret, raise.
  simpl. by destruct (Transform.transformed_data w ++ Transform.new_entries t).
Qed.

(** X21. Every entry the transformer creates pairs a conversion with a
    session of the same user whose timestamp compares strictly below the
    conversion's, and its [conversion] flag is 0: no entry is ever marked
    as the converting session. *)
Theorem new_entries_never_converting t (e : JourneyEntry) :
  e ∈ Transform.new_entries t →
  conversion e = 0%Z
  ∧ ∃ c s, c ∈ Transform.conversions t ∧ s ∈ Transform.session_sources t
           ∧ Transform.user_id s = Transform.conv_user_id c
           ∧ conversion_id e = Transform.conv_id c
           ∧ session_id e = Transform.session_id s
           ∧ String.ltb (timestamp e)
               (Transform.stamp (Transform.conv_date c) (Transform.conv_time c))
             = true.
Proof.
  intros (c & s & Hc & Hs & Hu & Hlt & ->)%new_entries_elem. split.
  - unfold Transform.journey_entry. simpl.
    destruct (String.eqb _ _) eqn:Heq; [| done].
    apply String.eqb_eq in Heq. rewrite Heq, ltb_irrefl in Hlt. done.
  - by exists c, s.
Qed.

(** X22. A transformer that holds no entry yet raises "No journey entries
    were created" exactly when no conversion has a session of its user
    before it, and then writes no file; otherwise it returns the new
    entries and writes them to the file. *)
Theorem transform_data_fresh t w :
  Transform.transformed_data w = [] →
  ((Transform.transform_data t w).1 = Raise Transform.no_journey_entries
   ↔ ∀ c, c ∈ Transform.conversions t → Transform.user_sessions t c = [])
  ∧ ((Transform.transform_data t w).1 = Raise Transform.no_journey_entries →
     Transform.output_json (Transform.transform_data t w).2
     = Transform.output_json w)
  ∧ (Transform.new_entries t ≠ [] →
     (Transform.transform_data t w).1 = Return (Transform.new_entries t)
     ∧ Transform.output_json (Transform.transform_data t w).2
       = Some (Transform.new_entries t)).
Proof.
  intros Hfresh.
  pose proof (transform_data_cases t w) as [_ Hcases].
  rewrite Hfresh in Hcases. simpl in Hcases.
  assert (Transform.new_entries t = [] ↔
          ∀ c, c ∈ Transform.conversions t → Transform.user_sessions t c = [])
    as Hnil.
  { unfold Transform.new_entries. split.
    - intros Hn c Hc.
      destruct (Transform.user_sessions t c) as [|s l] eqn:Hus; [done |].
      assert (Transform.journey_entry c s
              ∈ Transform.conversions t
                  ≫= (λ c, Transform.journey_entry c
                              <$> Transform.user_sessions t c)) as Hin.
      { apply list_elem_of_bind. exists c. rewrite Hus. split; [left | done]. }
      rewrite Hn in Hin. by apply not_elem_of_nil in Hin.
    - intros Hall. induction (Transform.conversions t) as [|c cs IH]; [done |].
      rewrite bind_cons, (Hall c) by left. simpl.
      apply IH. intros ? ?. apply Hall. by right. }
  destruct (Transform.new_entries t) as [|e es]; destruct Hcases as [Ho Hf];
    rewrite Ho; split_and!; try done.
  - split; [intros _; by apply Hnil | done].
  - split; [done |]. intros Hall. by apply Hnil in Hall.
Qed.

(** X23. The transformer keeps the entries of its earlier calls: a second
    call on the same object and the same tables returns, and writes to the
    file, every entry twice. *)
Theorem transform_data_twice t w :
  Transform.transformed_data w = [] →
  Transform.new_entries t ≠ [] →
  let second := Transform.transform_data t (Transform.transform_data t w).2 in
  second.1 = Return (Transform.new_entries t ++ Transform.new_entries t)
  ∧ Transform.output_json second.2
    = Some (Transform.new_entries t ++ Transform.new_entries t).
Proof.
  intros Hfresh Hne. cbv zeta.
  pose proof (transform_data_cases t w) as [Hdata _].
  rewrite Hfresh in Hdata. simpl in Hdata.
  pose proof (transform_data_cases t (Transform.transform_data t w).2)
    as [_ Hcases].
  rewrite Hdata in Hcases.
  destruct (Transform.new_entries t) as [|e es]; [done |]. by simpl in *.
Qed.

End Transformer.

(** ** The transformer feeding the batcher *)

Section TransformerAndBatcher.

Implicit Types (t : Transform.tables) (c : Transform.conversion).

Lemma entries_of_journey_entries c (l : list Transform.session) :
  Batcher.entries_of (Transform.conv_id c) (Transform.journey_entry c <$> l)
  = Transform.journey_entry c <$> l.
Proof.
  unfold Batcher.entries_of.
  induction l as [|s l IH]; csimpl; [done |].
  rewrite filter_cons_True by done. by rewrite IH.
Qed.

Lemma entries_of_other_conversion (k : string) c (l : list Transform.session) :
  Transform.conv_id c ≠ k →
  Batcher.entries_of k (Transform.journey_entry c <$> l) = [].
Proof.
  intros Hne. unfold Batcher.entries_of.
  induction l as [|s l IH]; csimpl; [done |].
  rewrite filter_cons_False; [done |]. simpl. congruence.
Qed.

(** The transformer's entries that carry the id of a conversion. *)
Lemma entries_of_new_entries t c :
  NoDup (Transform.conv_id <$> Transform.conversions t) →
  c ∈ Transform.conversions t →
  Batcher.entries_of (Transform.conv_id c) (Transform.new_entries t)
  = Transform.journey_entry c <$> Transform.user_sessions t c.
Proof.
  unfold Transform.new_entries.
  induction (Transform.conversions t) as [|c' cs IH]; intros Hnd Hin.
  - by apply not_elem_of_nil in Hin.
  - rewrite fmap_cons in Hnd. apply NoDup_cons in Hnd as [Hfresh Hnd].
    rewrite bind_cons. unfold Batcher.entries_of in *. rewrite filter_app.
    apply elem_of_cons in Hin as [<-|Hin].
    + pose proof (entries_of_journey_entries c (Transform.user_sessions t c))
        as Hsame.
      unfold Batcher.entries_of in Hsame. rewrite Hsame.
      assert (filter (λ e, conversion_id e = Transform.conv_id c)
                (cs ≫= (λ c0, Transform.journey_entry c0
                                 <$> Transform.user_sessions t c0)) = [])
        as ->; [| by rewrite app_nil_r].
      clear IH Hnd. induction cs as [|c1 cs IH]; [done |].
      rewrite bind_cons, filter_app.
      pose proof (entries_of_other_conversion (Transform.conv_id c) c1
                    (Transform.user_sessions t c1)) as Hother.
      unfold Batcher.entries_of in Hother. rewrite Hother.
      * apply IH. intros Hc. apply Hfresh. rewrite fmap_cons. by right.
      * intros Heq. apply Hfresh. rewrite fmap_cons, Heq. left.
    + pose proof (entries_of_other_conversion (Transform.conv_id c) c'
                    (Transform.user_sessions t c')) as Hother.
      unfold Batcher.entries_of in Hother. rewrite Hother.
      * by apply IH.
      * intros Heq. apply Hfresh. rewrite Heq.
        apply list_elem_of_fmap. by exists c.
Qed.

(** X24. When the conversions have pairwise distinct ids, the journeys
    that [group_by_conversion_id] forms out of the transformer's entries
    are those of the conversions that have an earlier session of their
    user, and the journey of a conversion lists the entries of these
    sessions in table order. *)
Theorem group_by_conversion_id_new_entries t (k : string)
    (v : list JourneyEntry) :
  NoDup (Transform.conv_id <$> Transform.conversions t) →
  (k, v) ∈ Batcher.group_by_conversion_id (Transform.new_entries t)
  ↔ ∃ c, c ∈ Transform.conversions t
         ∧ Transform.user_sessions t c ≠ []
         ∧ k = Transform.conv_id c
         ∧ v = Transform.journey_entry c <$> Transform.user_sessions t c.
Proof.
  intros Hnd.
  pose proof (group_by_conversion_id_grouped (Transform.new_entries t))
    as (_ & Hkeys & Hvals).
  split.
  - intros Hin. destruct (Hvals k v Hin) as [Hv Hne].
    destruct v as [|e v']; [done |].
    assert (e ∈ Batcher.entries_of k (Transform.new_entries t)) as He
      by (rewrite <- Hv; left).
    apply list_elem_of_filter in He as [Hk He].
    apply new_entries_elem in He as (c & s & Hc & _ & _ & _ & ->).
    simpl in Hk. subst k. exists c.
    rewrite (entries_of_new_entries t c Hnd Hc) in Hv.
    split_and!; [done | | done | done].
    intros Hnil. by rewrite Hnil in Hv.
  - intros (c & Hc & Hne & -> & ->).
    destruct (Transform.user_sessions t c) as [|s l] eqn:Hus; [done |].
    assert (Transform.journey_entry c s ∈ Transform.new_entries t) as He.
    { unfold Transform.new_entries. apply list_elem_of_bind. exists c.
      rewrite Hus. split; [left | done]. }
    apply Hkeys in He. simpl in He.
    apply list_elem_of_fmap in He as ([k v] & Hk & Hin). simpl in Hk. subst k.
    destruct (Hvals _ _ Hin) as [Hv _].
    rewrite (entries_of_new_entries t c Hnd Hc), Hus in Hv. by subst v.
Qed.

End TransformerAndBatcher.

Section ConcreteTransforms.
Import Examples.

Lemma new_entries_never_converting_witness :
  let e := Transform.journey_entry
             (purchase "c1" "u1" "2023-09-03" "12:00:00")
             (visit "s2" "2023-09-02" "10:00:00") in
  conversion e = 0%Z
  ∧ ∃ c s, c ∈ Transform.conversions one_buyer
           ∧ s ∈ Transform.session_sources one_buyer
           ∧ Transform.user_id s = Transform.conv_user_id c
           ∧ conversion_id e = Transform.conv_id c
           ∧ session_id e = Transform.session_id s
           ∧ String.ltb (timestamp e)
               (Transform.stamp (Transform.conv_date c) (Transform.conv_time c))
             = true.
Proof.
  apply (new_entries_never_converting one_buyer).
  vm_compute. right. left.
Defined.

Lemma transform_data_fresh_witness :
  ((Transform.transform_data one_buyer new_transformer).1
   = Raise Transform.no_journey_entries
   ↔ ∀ c, c ∈ Transform.conversions one_buyer →
          Transform.user_sessions one_buyer c = [])
  ∧ ((Transform.transform_data one_buyer new_transformer).1
     = Raise Transform.no_journey_entries →
     Transform.output_json (Transform.transform_data one_buyer new_transformer).2
     = Transform.output_json new_transformer)
  ∧ (Transform.new_entries one_buyer ≠ [] →
     (Transform.transform_data one_buyer new_transformer).1
     = Return (Transform.new_entries one_buyer)
     ∧ Transform.output_json
         (Transform.transform_data one_buyer new_transformer).2
       = Some (Transform.new_entries one_buyer)).
Proof.
  apply (transform_data_fresh one_buyer new_transformer).
  reflexivity.
Defined.

Lemma transform_data_twice_witness :
  let second :=
    Transform.transform_data one_buyer
      (Transform.transform_data one_buyer new_transformer).2 in
  second.1
  = Return (Transform.new_entries one_buyer ++ Transform.new_entries one_buyer)
  ∧ Transform.output_json second.2
    = Some (Transform.new_entries one_buyer ++ Transform.new_entries one_buyer).
Proof.
  apply (transform_data_twice one_buyer new_transformer).
  - reflexivity.
  - vm_compute. discriminate.
Defined.

Lemma group_by_conversion_id_new_entries_witness :
  ("c1", Transform.journey_entry (purchase "c1" "u1" "2023-09-03" "12:00:00")
           <$> [visit "s1" "2023-09-01" "09:00:00";
                visit "s2" "2023-09-02" "10:00:00"])
  ∈ Batcher.group_by_conversion_id (Transform.new_entries one_buyer)
  ↔ ∃ c, c ∈ Transform.conversions one_buyer
         ∧ Transform.user_sessions one_buyer c ≠ []
         ∧ "c1" = Transform.conv_id c
         ∧ Transform.journey_entry (purchase "c1" "u1" "2023-09-03" "12:00:00")
             <$> [visit "s1" "2023-09-01" "09:00:00";
                  visit "s2" "2023-09-02" "10:00:00"]
           = Transform.journey_entry c <$> Transform.user_sessions one_buyer c.
Proof.
  apply (group_by_conversion_id_new_entries one_buyer).
  apply (bool_decide_unpack _). reflexivity.
Defined.

(** The buyer's two earlier sessions make the journey; the session at the
    very time of the conversion is left out. *)
Example transform_one_buyer :
  session_id <$> Transform.new_entries one_buyer = ["s1"; "s2"].
Proof. reflexivity. Qed.

End ConcreteTransforms.
